(** * espoll: polling an Elasticsearch request until a condition holds

    A shallow embedding of [pkg/espoll/query.go]: the query-DSL builders and
    their [MarshalJSON] methods, the request options, the condition
    combinator [AllCondition] and the retry executor [Client.Do].

    The Go runtime and the libraries the package calls are modelled only
    as far as the package observes them: [time], [io] and [esapi] in
    [Module Go], [encoding/json] in [Module JSON]. *)

From Stdlib Require Import ZArith List String Ascii Bool Lia.
From Stdlib Require Import DecimalString.
Import ListNotations.
Open Scope Z_scope.

#[local] Set Warnings "-register-all".

(* ================================================================== *)
(** * The part of the Go runtime the package relies on *)
(* ================================================================== *)

Module Go.

(** [[]byte]. *)
Definition bytes := list Byte.byte.

Definition bytes_of (s : string) : bytes := list_byte_of_string s.

(** ** Errors

    Go's [error] is one interface type: the value returned on the deadline
    branch of [Do], the [*Error] built for an error status and whatever a
    transport, a reader or the decoder returns all inhabit it, and [Do]
    hands the latter through unchanged. *)

(** [type Error struct { StatusCode int; Message string }] *)
Record Error := mkError { StatusCode : Z; Message : string }.

Inductive error :=
| context_DeadlineExceeded            (* context.DeadlineExceeded *)
| espoll_Error (e : Error)            (* &Error{...} *)
| other_error (msg : string).         (* any other error value *)

(** [func (e *Error) Error() string] *)
Definition Error_Error (e : Error) : string := Message e.

(** ** Readers

    An [io.Reader] / [io.ReadCloser] is a one-shot stream: the bytes still
    to be read, and the error (if any) that reading hits after them. *)

Record Reader := mkReader { rest : bytes; rerr : option error }.

(** [io.ReadAll]: everything up to the end of the stream, and the error
    that stopped the read (nil at a clean end of file). *)
Definition ReadAll (r : Reader) : bytes * option error := (rest r, rerr r).

(** The same reader after it has been read to its end. *)
Definition drained (r : Reader) : Reader := {| rest := []; rerr := rerr r |}.

(** [io.NopCloser(bytes.NewReader(b))]: a fresh stream over a buffer. *)
Definition NewReader (b : bytes) : Reader := {| rest := b; rerr := None |}.

(** ** Time

    [time.Duration] is a count of nanoseconds. Instants are nanoseconds
    since the call to [Do] started. *)

Definition Duration := Z.
Definition Millisecond : Duration := 1000000.
Definition Second : Duration := 1000 * Millisecond.
Definition Minute : Duration := 60 * Second.

(** A running [time.Ticker]: its period and the instant of the earliest
    tick that has not been received yet. The channel holds one tick; ticks
    that fall due while one is waiting are dropped. *)
Record Ticker := mkTicker { period : Duration; next : Z }.

(** [time.NewTicker(d)] at instant [now]; it panics when [d <= 0]
    ("non-positive interval for NewTicker"), which is [None] here. *)
Definition NewTicker (d : Duration) (now : Z) : option Ticker :=
  if d <=? 0 then None else Some {| period := d; next := now + d |}.

(** The ticker after a tick was received at instant [t >= next]: the next
    tick to arrive is the first one of the schedule strictly after [t]. *)
Definition after_tick (tk : Ticker) (t : Z) : Ticker :=
  {| period := period tk;
     next := next tk + period tk * ((t - next tk) / period tk + 1) |}.

Inductive Fired := TimeoutFired | TickFired.

(** The two-way [select] of [Do], entered at instant [now]:

      select { case <-timeoutC: ... case <-tickerC: ... }

    [timeoutC] is [None] for a nil channel (never ready) and [Some d] for
    the channel of a timer that fires at instant [d]. Each case can
    proceed from the later of [now] and the instant its channel is fed;
    the earlier one is taken, and when both can proceed at the same
    instant Go chooses one of them pseudo-randomly: [coin] is that choice.
    The result is the case taken, the instant at which the select
    returns, and the ticker afterwards. *)
Definition select (timeoutC : option Z) (tk : Ticker) (now : Z) (coin : bool)
  : Fired * Z * Ticker :=
  let tick_at := Z.max now (next tk) in
  match timeoutC with
  | None => (TickFired, tick_at, after_tick tk tick_at)
  | Some d =>
      let timeout_at := Z.max now d in
      if timeout_at <? tick_at then (TimeoutFired, timeout_at, tk)
      else if tick_at <? timeout_at then (TickFired, tick_at, after_tick tk tick_at)
      else if coin then (TimeoutFired, timeout_at, tk)
      else (TickFired, tick_at, after_tick tk tick_at)
  end.

(** ** esapi.Response, as far as [Do] looks at it *)

Record Response := mkResponse { resp_StatusCode : Z; resp_Body : Reader }.

(** [func (r *Response) IsError() bool { return r.StatusCode > 299 }] *)
Definition IsError (r : Response) : bool := 299 <? resp_StatusCode r.

(** [%d] of an integer. *)
Definition itoa (i : Z) : string := NilZero.string_of_int (Z.to_int i).

(** [err.Error()], the text [%v] prints for an error. *)
Definition error_text (e : error) : string :=
  match e with
  | context_DeadlineExceeded => "context deadline exceeded"
  | espoll_Error e' => Error_Error e'
  | other_error msg => msg
  end.

(** [fmt.Sprintf("[%d %s]", r.StatusCode, http.StatusText(r.StatusCode))] *)
Definition status_line (StatusText : Z -> string) (code : Z) : string :=
  ("[" ++ itoa code ++ " " ++ StatusText code ++ "]")%string.

(** The method [String] of an esapi response, whose result [Do] takes as
    the message of an [Error]. esapi is a dependency of the repository
    (github.com/elastic/go-elasticsearch), so this follows the library and
    not a file of the repository: the method copies the body to its end;
    if that fails it returns [<error reading response body: err>];
    otherwise it writes the status line in brackets and, when the body is
    not empty, a space and the bytes of the body as they are.
    [StatusText] is [http.StatusText], the table of reason phrases of
    net/http. *)
Definition esapi_String (StatusText : Z -> string) (r : Response) : string :=
  match ReadAll (resp_Body r) with
  | (_, Some err) =>
      ("<error reading response body: " ++ error_text err ++ ">")%string
  | ([], None) => status_line StatusText (resp_StatusCode r)
  | (body, None) =>
      (status_line StatusText (resp_StatusCode r) ++ " "
         ++ string_of_list_byte body)%string
  end.

End Go.

Export Go.

(* ================================================================== *)
(** * Conditions and request options *)
(* ================================================================== *)

Section Conditions.

(** A Go [func(resp *esapi.Response) bool] may be a closure over mutable state
    (a test stub that counts its calls, say). [U] is that state, threaded
    through every evaluation; a side-effect-free condition leaves it
    alone. *)
Context {U : Type}.

(** [type ConditionFunc func(resp *esapi.Response) bool] *)
Definition ConditionFunc := Response -> U -> bool * U.

(** A condition without side effects. *)
Definition pure_cond (p : Response -> bool) : ConditionFunc :=
  fun resp u => (p resp, u).

(** [AllCondition]: the loop returns false at the first condition that
    does, and true when the range is exhausted. *)
Fixpoint AllCondition (conds : list ConditionFunc) : ConditionFunc :=
  fun resp u =>
    match conds with
    | [] => (true, u)
    | cond :: conds' =>
        let (b, u') := cond resp u in
        if negb b then (false, u') else AllCondition conds' resp u'
    end.

(** [type requestOptions struct] ; a nil [cond] is [None]. *)
Record requestOptions := mkOptions {
  timeout : Duration;
  interval : Duration;
  cond : option ConditionFunc
}.

(** [type RequestOption func(opts *requestOptions)] *)
Definition RequestOption := requestOptions -> requestOptions.

Definition WithTimeout (d : Duration) : RequestOption :=
  fun opts => {| timeout := d; interval := interval opts; cond := cond opts |}.

Definition WithInterval (d : Duration) : RequestOption :=
  fun opts => {| timeout := timeout opts; interval := d; cond := cond opts |}.

Definition WithCondition (c : ConditionFunc) : RequestOption :=
  fun opts => {| timeout := timeout opts; interval := interval opts; cond := Some c |}.

(** The options [Do] starts from, and the range loop that applies the
    caller's options in order. *)
Definition defaultOptions : requestOptions :=
  {| timeout := Minute; interval := 100 * Millisecond; cond := None |}.

Definition applyOptions (opts : list RequestOption) : requestOptions :=
  fold_left (fun ro opt => opt ro) opts defaultOptions.

(** Every condition of the list returns true on [resp] when they are run
    in order from state [u], leaving state [u']. *)
Inductive all_true (resp : Response) : list ConditionFunc -> U -> U -> Prop :=
| all_true_nil u : all_true resp [] u u
| all_true_cons c cs u u1 u' :
    c resp u = (true, u1) -> all_true resp cs u1 u' ->
    all_true resp (c :: cs) u u'.

End Conditions.

Arguments ConditionFunc : clear implicits.
Arguments requestOptions : clear implicits.
Arguments RequestOption : clear implicits.

(* ================================================================== *)
(** * Transports and the request *)
(* ================================================================== *)

Section Executor.

(** [U] is the state of the caller's condition closures, [D] the type of
    the destination [out] points to. *)
Context {U D : Type}.

(** One round trip to the cluster: how long it takes (nanoseconds of the
    monotonic clock, so never negative) and what comes back,
    [(resp, nil)] or [(nil, err)]. *)
Record RoundTrip := mkRoundTrip {
  elapsed : N;
  answer : Response + error
}.

(** What surrounds one call of [Do]:
    - [server n b]: the round trip of the [n]-th request (from 0) to reach
      the cluster, sent with body [b] ([None]: no body);
    - [Unmarshal body o]: [json.Unmarshal(body, out)] on a destination
      holding [o]: the destination afterwards (it may have been written to
      even when decoding fails) and the error;
    - [StatusText]: [http.StatusText], with which esapi's [String]
      method of a response ([Response_String] below) makes the rendering of
      the status line and body used as the message of an [Error];
    - [race n]: the choice of [select] in the wait that follows the
      [n]-th attempt, used only when both of its cases can proceed. *)
Record Env := mkEnv {
  server : nat -> option bytes -> RoundTrip;
  Unmarshal : bytes -> D -> D * option error;
  StatusText : Z -> string;
  race : nat -> bool
}.

(** [resp.String()] *)
Definition Response_String (E : Env) (resp : Response) : string :=
  esapi_String (StatusText E) resp.

(** The clock and the log of the bodies that reached the cluster, one
    entry per request in order. *)
Record Wire := mkWire { now : Z; sent : list (option bytes) }.

Definition deliver (E : Env) (w : Wire) (b : option bytes)
  : (Response + error) * Wire :=
  let rt := server E (List.length (sent w)) b in
  (answer rt, {| now := now w + Z.of_N (elapsed rt); sent := sent w ++ [b] |}).

(** [esapi.Transport] has two implementations here: the client [es]
    itself and the [bodyRepeater] that [Do] wraps around it,
    [&bodyRepeater{transport, nil}]. The second field is the function
    that re-creates the body, nil until a body has been captured; it is
    represented by the captured bytes. *)
Inductive Transport :=
| esClient
| bodyRepeater (t : Transport) (getBody : option bytes).

(** Modelled from the spec: the [Perform] method of [bodyRepeater], whose
    declaration is not part of [query.go]. On the first request with a
    body it reads the whole body (an error of that read is returned at
    once), keeps the bytes and hands the wrapped transport a fresh stream
    over them; on every later request it installs a fresh stream over the
    kept bytes without reading again. A request without a body goes
    straight to the wrapped transport.

    The [esClient] case is the Elasticsearch client: it reads the body it
    is given to the end and sends it.

    [body] is the stream the request carries when [Perform] is entered.
    The result is the answer, that same stream afterwards (it is shared
    with the caller's request object), the transport afterwards, and the
    wire. *)
Fixpoint Perform (E : Env) (tr : Transport) (body : option Reader) (w : Wire)
  : (Response + error) * option Reader * Transport * Wire :=
  match tr with
  | esClient =>
      match body with
      | None => let (a, w') := deliver E w None in (a, None, esClient, w')
      | Some r =>
          match ReadAll r with
          | (_, Some e) => (inr e, Some (drained r), esClient, w)
          | (data, None) =>
              let (a, w') := deliver E w (Some data) in
              (a, Some (drained r), esClient, w')
          end
      end
  | bodyRepeater t getBody =>
      match body with
      | None =>
          let '(a, _, t', w') := Perform E t None w in
          (a, None, bodyRepeater t' getBody, w')
      | Some r =>
          match getBody with
          | None =>
              match ReadAll r with
              | (_, Some e) => (inr e, Some (drained r), bodyRepeater t None, w)
              | (data, None) =>
                  let '(a, _, t', w') := Perform E t (Some (NewReader data)) w in
                  (a, Some (drained r), bodyRepeater t' (Some data), w')
              end
          | Some data =>
              let '(a, _, t', w') := Perform E t (Some (NewReader data)) w in
              (a, Some r, bodyRepeater t' (Some data), w')
          end
      end
  end.

(** The [Request] interface has the single method
    [Do(ctx, transport) (resp, error)]. Its implementations are esapi's
    request structs: each call builds one HTTP request around the struct's
    [Body] reader and passes it to [transport.Perform] once. *)
Record Request := mkRequest { req_Body : option Reader }.

Definition Request_Do (E : Env) (r : Request) (tr : Transport) (w : Wire)
  : (Response + error) * Request * Transport * Wire :=
  let '(a, body', tr', w') := Perform E tr (req_Body r) w in
  (a, {| req_Body := body' |}, tr', w').

(* ================================================================== *)
(** * Client.Do *)
(* ================================================================== *)

(** The variables of the loop of [Do]. [attempts] counts the calls of
    [req.Do] made so far. *)
Record LoopState := mkLoop {
  wire : Wire;
  attempts : nat;
  tickerC : option Ticker;
  transport : Transport;
  req : Request;
  out : option D;
  ustate : U
}.

Definition set_clock (t : Z) (tk : option Ticker) (st : LoopState) : LoopState :=
  {| wire := {| now := t; sent := sent (wire st) |}; attempts := attempts st;
     tickerC := tk; transport := transport st; req := req st; out := out st;
     ustate := ustate st |}.

Definition set_attempt (r : Request) (tr : Transport) (w : Wire) (st : LoopState)
  : LoopState :=
  {| wire := w; attempts := S (attempts st); tickerC := tickerC st;
     transport := tr; req := r; out := out st; ustate := ustate st |}.

Definition set_out (o : option D) (st : LoopState) : LoopState :=
  {| wire := wire st; attempts := attempts st; tickerC := tickerC st;
     transport := transport st; req := req st; out := o; ustate := ustate st |}.

Definition set_ustate (u : U) (st : LoopState) : LoopState :=
  {| wire := wire st; attempts := attempts st; tickerC := tickerC st;
     transport := transport st; req := req st; out := out st; ustate := u |}.

Definition set_ticker (tk : Ticker) (st : LoopState) : LoopState :=
  {| wire := wire st; attempts := attempts st; tickerC := Some tk;
     transport := transport st; req := req st; out := out st;
     ustate := ustate st |}.

(** How a call ends: it returns [(resp, err)], it panics, or (for the
    model only) it is still in its loop when the iterations allowed to
    it are used up. *)
Inductive Outcome :=
| Return (resp : option Response) (err : option error)
| Panic (msg : string)
| Polling.

Record Final := mkFinal { outcome : Outcome; final : LoopState }.

(** [json.Unmarshal(body, out)] guarded by [if out != nil]. *)
Definition decode (E : Env) (body : bytes) (o : option D)
  : option D * option error :=
  match o with
  | None => (None, None)
  | Some d => let (d', e) := Unmarshal E body d in (Some d', e)
  end.

(** [resp.Body = io.NopCloser(bytes.NewReader(body))] *)
Definition reinstate (resp : Response) (body : bytes) : Response :=
  {| resp_StatusCode := resp_StatusCode resp; resp_Body := NewReader body |}.

(** The top of the loop body: [if tickerC != nil { select ... }]. *)
Definition wait (E : Env) (timeoutC : option Z) (st : LoopState)
  : LoopState + Final :=
  match tickerC st with
  | None => inl st
  | Some tk =>
      match select timeoutC tk (now (wire st)) (race E (attempts st)) with
      | (TimeoutFired, t, tk') =>
          inr {| outcome := Return None (Some context_DeadlineExceeded);
                 final := set_clock t (Some tk') st |}
      | (TickFired, t, tk') => inl (set_clock t (Some tk') st)
      end
  end.

(** The rest of the loop body once [req.Do] has returned [a]: the error
    checks, the read of the body, the decoding, the condition, and the
    start of the ticker after the first condition that fails. *)
Definition settle (E : Env) (ro : requestOptions U) (a : Response + error)
  (st : LoopState) : LoopState + Final :=
  match a with
  | inr err => inr {| outcome := Return None (Some err); final := st |}
  | inl resp =>
    if IsError resp then
      inr {| outcome :=
               Return None (Some (espoll_Error
                 {| StatusCode := resp_StatusCode resp;
                    Message := Response_String E resp |}));
             final := st |}
    else
      match ReadAll (resp_Body resp) with
      | (_, Some err) => inr {| outcome := Return None (Some err); final := st |}
      | (body, None) =>
        let (o', derr) := decode E body (out st) in
        let st3 := set_out o' st in
        match derr with
        | Some err => inr {| outcome := Return None (Some err); final := st3 |}
        | None =>
          let resp' := reinstate resp body in
          match cond ro with
          | None => inr {| outcome := Return (Some resp') None; final := st3 |}
          | Some c =>
            let (b, u') := c resp' (ustate st3) in
            let st4 := set_ustate u' st3 in
            if b then inr {| outcome := Return (Some resp') None; final := st4 |}
            else
              match tickerC st4 with
              | Some _ => inl st4
              | None =>
                match NewTicker (interval ro) (now (wire st4)) with
                | None =>
                  inr {| outcome := Panic "non-positive interval for NewTicker";
                         final := st4 |}
                | Some tk => inl (set_ticker tk st4)
                end
              end
          end
        end
      end
  end.

(** One pass through the body of the [for] loop: either the state with
    which the next pass starts, or the end of the call. *)
Definition iteration (E : Env) (ro : requestOptions U) (timeoutC : option Z)
  (st : LoopState) : LoopState + Final :=
  match wait E timeoutC st with
  | inr f => inr f
  | inl st1 =>
    let '(a, r', tr', w') := Request_Do E (req st1) (transport st1) (wire st1) in
    settle E ro a (set_attempt r' tr' w' st1)
  end.

(** The [for] loop, cut off after [fuel] passes. *)
Fixpoint loop (E : Env) (ro : requestOptions U) (timeoutC : option Z)
  (fuel : nat) (st : LoopState) : Final :=
  match fuel with
  | O => {| outcome := Polling; final := st |}
  | S fuel' =>
      match iteration E ro timeoutC st with
      | inr f => f
      | inl st' => loop E ro timeoutC fuel' st'
      end
  end.

(** What [Do] sets up before the loop: the timer channel, non-nil only
    with a condition and a positive timeout (the timer is started when the
    call starts, instant 0), and the transport, wrapped only with a
    condition. *)
Definition timerOf (ro : requestOptions U) : option Z :=
  match cond ro with
  | Some _ => if 0 <? timeout ro then Some (timeout ro) else None
  | None => None
  end.

Definition transportOf (ro : requestOptions U) : Transport :=
  match cond ro with
  | Some _ => bodyRepeater esClient None
  | None => esClient
  end.

Definition start (ro : requestOptions U) (r : Request) (o : option D) (u : U)
  : LoopState :=
  {| wire := {| now := 0; sent := [] |}; attempts := 0; tickerC := None;
     transport := transportOf ro; req := r; out := o; ustate := u |}.

(** [func (es *Client) Do(ctx, req, out, opts...) (resp, error)], run for
    at most [fuel] attempts, the caller's condition closures starting in
    state [u]. The context is only handed to [req.Do]; what it does to a
    round trip is part of the answer of the [server]. The deferred
    [Stop] and [Close] calls release the timer, the ticker and the
    bodies when the call ends and have no part in its result. *)
Definition Do (E : Env) (fuel : nat) (r : Request) (o : option D)
  (opts : list (RequestOption U)) (u : U) : Final :=
  let ro := applyOptions opts in
  loop E ro (timerOf ro) fuel (start ro r o u).

(* ================================================================== *)
(** * Vocabulary for statements about runs of [Do] *)
(* ================================================================== *)

(** The body that reaches the cluster when the request's reader is read
    from its beginning to its end. *)
Definition body_of (r : Request) : option bytes := option_map rest (req_Body r).

(** The body of the request, if it has one, is read without an error. *)
Definition readable (r : Request) : Prop :=
  match req_Body r with
  | Some rd => rerr rd = None
  | None => True
  end.

(** A response as the condition and the caller get it, its body
    reinstated as a fresh stream. *)
Definition seen (resp : Response) : Response :=
  reinstate resp (rest (resp_Body resp)).

(** Attempt number [i] (from 0), sent with body [B], comes back as [resp]
    with a status that is no error and a body that is read without error
    and decoded without error, which takes the destination from [d] to
    [d']. *)
Definition succeeds (E : Env) (B : option bytes) (i : nat) (resp : Response)
  (d d' : option D) : Prop :=
  answer (server E i B) = inl resp /\
  IsError resp = false /\
  rerr (resp_Body resp) = None /\
  decode E (rest (resp_Body resp)) d = (d', None).

(** The first [n] attempts succeed, with responses [resp 0 .. resp (n-1)],
    and the configured condition is false on each of them; [dst i] and
    [us i] are the destination and the state of the condition before
    attempt [i]. *)
Definition unsatisfied (E : Env) (oc : option (@ConditionFunc U))
  (B : option bytes) (n : nat) (resp : nat -> Response)
  (dst : nat -> option D) (us : nat -> U) : Prop :=
  forall i, (i < n)%nat ->
    succeeds E B i (resp i) (dst i) (dst (S i)) /\
    exists c, oc = Some c /\ c (seen (resp i)) (us i) = (false, us (S i)).

(** The time taken by the first [n] round trips. *)
Fixpoint spent (E : Env) (B : option bytes) (n : nat) : Z :=
  match n with
  | O => 0
  | S m => spent E B m + Z.of_N (elapsed (server E m B))
  end.

(** The timeout leaves room for [n] full attempts each followed by a wait
    of one interval: no timer is armed, or it fires later than that. *)
Definition allows (E : Env) (ro : requestOptions U) (B : option bytes) (n : nat)
  : Prop :=
  timerOf ro = None \/ spent E B n + Z.of_nat n * interval ro < timeout ro.

(** No collaborator of [Do] produces the deadline error itself: not the
    reader of the request body, not a round trip, not the reader of a
    response body, not the decoder. *)
Definition no_foreign_deadline (E : Env) (r : Request) : Prop :=
  (forall rd, req_Body r = Some rd -> rerr rd <> Some context_DeadlineExceeded) /\
  (forall n b, answer (server E n b) <> inr context_DeadlineExceeded) /\
  (forall n b resp, answer (server E n b) = inl resp ->
     rerr (resp_Body resp) <> Some context_DeadlineExceeded) /\
  (forall b d, snd (Unmarshal E b d) <> Some context_DeadlineExceeded).

(* ================================================================== *)
(** * Invariants of the loop *)
(* ================================================================== *)

(** The wire after one more request, with body [B], reached the cluster. *)
Definition delivered (E : Env) (w : Wire) (B : option bytes) : Wire :=
  {| now := now w + Z.of_N (elapsed (server E (List.length (sent w)) B));
     sent := sent w ++ [B] |}.

(** The transport and the request that [Do] holds once a request of
    [r0] has gone through the repeater. *)
Definition replaying (r0 : Request) (tr : Transport) (rq : Request) : Prop :=
  match req_Body r0 with
  | None => tr = bodyRepeater esClient None /\ rq = r0
  | Some rd =>
      tr = bodyRepeater esClient (Some (rest rd)) /\
      rq = {| req_Body := Some (drained rd) |}
  end.

(** The loop state after [n] attempts that all succeeded with the
    condition false: what was sent, the destination, the state of the
    condition, the transport, and the clock, which is not later than the
    round trips and the waits of one interval between them add up to. *)
Record polled (E : Env) (ro : requestOptions U) (r0 : Request)
  (dst : nat -> option D) (us : nat -> U) (n : nat) (st : LoopState) : Prop :=
  mkPolled {
  p_attempts : attempts st = n;
  p_sent : sent (wire st) = repeat (body_of r0) n;
  p_out : out st = dst n;
  p_ustate : ustate st = us n;
  p_transport :
    match n with
    | O => transport st = transportOf ro /\ req st = r0
    | S _ => replaying r0 (transport st) (req st)
    end;
  p_clock :
    match n with
    | O => tickerC st = None /\ now (wire st) = 0
    | S m =>
        exists tk, tickerC st = Some tk /\ period tk = interval ro /\
                   next tk <= now (wire st) + interval ro /\
                   now (wire st) <= spent E (body_of r0) n + Z.of_nat m * interval ro
    end
}.

(** How a pass can end the call once the request has returned [a]. *)
Definition settled (E : Env) (ro : requestOptions U) (a : Response + error)
  (st : LoopState) (f : Final) : Prop :=
  match outcome f with
  | Return (Some resp') None =>
      exists resp, a = inl resp /\ resp' = seen resp /\
        IsError resp = false /\ rerr (resp_Body resp) = None /\
        decode E (rest (resp_Body resp)) (out st) = (out (final f), None)
  | Return None (Some e) =>
      a = inr e \/
      exists resp, a = inl resp /\
        ((IsError resp = true /\
          e = espoll_Error {| StatusCode := resp_StatusCode resp;
                              Message := Response_String E resp |}) \/
         rerr (resp_Body resp) = Some e \/
         (exists d, out st = Some d /\
                    snd (Unmarshal E (rest (resp_Body resp)) d) = Some e))
  | Return _ _ => False
  | Panic _ => interval ro <= 0 /\ cond ro <> None
  | Polling => False
  end.

(** Every way a call can end, whatever the cluster answers; [o] is the
    destination the call was given. *)
Definition classified (E : Env) (ro : requestOptions U) (o : option D)
  (f : Final) : Prop :=
  match outcome f with
  | Return (Some resp) None =>
      resp_Body resp = NewReader (rest (resp_Body resp)) /\
      exists prev, (prev = None <-> o = None) /\
        decode E (rest (resp_Body resp)) prev = (out (final f), None)
  | Return None (Some _) => True
  | Return _ _ => False
  | Panic _ => interval ro <= 0 /\ cond ro <> None
  | Polling => True
  end.

(** A body whose reader does not fail with the deadline error. *)
Definition clean_body (body : option Reader) : Prop :=
  forall rd, body = Some rd -> rerr rd <> Some context_DeadlineExceeded.

(** Every request so far reached the cluster with the body of [r0], and
    the repeater is set to send it again. *)
Definition repeating (r0 : Request) (st : LoopState) : Prop :=
  sent (wire st) = repeat (body_of r0) (attempts st) /\
  match attempts st with
  | O => transport st = bodyRepeater esClient None /\ req st = r0
  | S _ => replaying r0 (transport st) (req st)
  end.

(** The reader of the request [rq] fails, if it does, as the reader of
    [r] does. *)
Definition same_failure (r : Request) (rq : Request) : Prop :=
  forall rd', req_Body rq = Some rd' ->
    exists rd, req_Body r = Some rd /\ rerr rd' = rerr rd.

(** The errors a call on request [r] can end with, by kind: the
    deadline; a failure to read the body of the request; the failure of
    a round trip; and, for a round trip that was answered, the [Error]
    made of an error status, a failure to read the body of the response,
    or a failure to decode it. *)
Definition terminal_error (E : Env) (r : Request) (e : error) : Prop :=
  e = context_DeadlineExceeded \/
  (exists rd, req_Body r = Some rd /\ rerr rd = Some e) \/
  (exists n b, answer (server E n b) = inr e) \/
  (exists n b resp, answer (server E n b) = inl resp /\
     ((IsError resp = true /\
       e = espoll_Error {| StatusCode := resp_StatusCode resp;
                           Message := Response_String E resp |}) \/
      rerr (resp_Body resp) = Some e \/
      exists d, snd (Unmarshal E (rest (resp_Body resp)) d) = Some e)).

(** The loop keeps its pace: the clock is not before one interval per
    attempt after the first, a ticker exists as soon as an attempt has
    been made and its next tick is not before one interval per attempt,
    and no more requests were sent than attempts made. *)
Definition paced (ro : requestOptions U) (st : LoopState) : Prop :=
  0 <= now (wire st) /\
  (Z.of_nat (attempts st) - 1) * interval ro <= now (wire st) /\
  (tickerC st = None -> attempts st = 0%nat) /\
  (forall tk, tickerC st = Some tk ->
     period tk = interval ro /\ Z.of_nat (attempts st) * interval ro <= next tk) /\
  (List.length (sent (wire st)) <= attempts st)%nat.

(** The same surroundings with another decoder. *)
Definition with_decoder (E : Env) (um : bytes -> D -> D * option error) : Env :=
  {| server := server E; Unmarshal := um;
     StatusText := StatusText E; race := race E |}.

(** What an attempt whose body is [body] does to the destination when
    it decodes without error: nothing without a destination; otherwise
    the destination holds what [json.Unmarshal] made of the body, written
    over what the destination held before. *)
Definition written (E : Env) (body : bytes) (before after : option D) : Prop :=
  match before with
  | None => after = None
  | Some prev =>
      exists d', Unmarshal E body prev = (d', None) /\ after = Some d'
  end.

(** The state [after] is the state [before] and one more attempt, which
    succeeded: one more request reached the cluster, it was answered
    with [resp], whose status is no error and whose body was read to its
    end, and that body was decoded into the destination as [before] left
    it. *)
Definition one_more (E : Env) (before after : LoopState) (resp : Response)
  : Prop :=
  exists b,
    attempts after = S (attempts before) /\
    sent (wire after) = (sent (wire before) ++ [b])%list /\
    answer (server E (List.length (sent (wire before))) b) = inl resp /\
    IsError resp = false /\
    rerr (resp_Body resp) = None /\
    written E (rest (resp_Body resp)) (out before) (out after).

(** What a single attempt amounts to when no condition is configured, in
    the words of the error taxonomy: a failure of the transport, an error
    status, a body that cannot be read, a body that cannot be decoded, or
    the response. *)
Definition single_attempt (E : Env) (r : Request) (o : option D) : Outcome :=
  let a :=
    match req_Body r with
    | None => answer (server E 0 None)
    | Some rd =>
        match rerr rd with
        | Some e => inr e
        | None => answer (server E 0 (Some (rest rd)))
        end
    end in
  match a with
  | inr err => Return None (Some err)
  | inl resp =>
      if IsError resp then
        Return None (Some (espoll_Error
          {| StatusCode := resp_StatusCode resp;
             Message := Response_String E resp |}))
      else
        match rerr (resp_Body resp) with
        | Some err => Return None (Some err)
        | None =>
            match snd (decode E (rest (resp_Body resp)) o) with
            | Some err => Return None (Some err)
            | None => Return (Some (seen resp)) None
            end
        end
  end.

End Executor.

Arguments Env : clear implicits.
Arguments LoopState : clear implicits.
Arguments Final : clear implicits.

(* ================================================================== *)
(** * The query builders and their JSON encoding *)
(* ================================================================== *)

Module JSON.

(** A [float64] is its IEEE-754 bit pattern: sign (bit 63), exponent
    (bits 62..52), fraction. Only the tests the encoder makes are needed:
    whether the value is zero (either sign) and whether it is finite. *)
Definition float64 := Z.

Definition float64_is_zero (f : float64) : bool :=
  Z.land f (Z.ones 63) =? 0.

Definition float64_is_finite (f : float64) : bool :=
  negb (Z.land (Z.shiftr f 52) (Z.ones 11) =? Z.ones 11).

(** A JSON document. *)
Inductive json :=
| JNull
| JBool (b : bool)
| JInt (i : Z)
| JFloat (f : float64)
| JString (s : string)
| JArray (elems : list json)
| JObject (members : list (string * json)).

(** The Go values that are handed to [json.Marshal] as [any]. A struct is
    the list of its exported fields in declaration order, each with the
    key of its [json] tag, whether it is left out (the tag says
    [omitempty] and the field is empty for its type) and its value. A map
    is the list of its entries, one per key. A value with a [MarshalJSON]
    method of its own is what that method returns. *)
Inductive any :=
| nil_any
| bool_any (b : bool)
| int_any (i : Z)
| float64_any (f : float64)
| string_any (s : string)
| nilslice_any
| slice_any (elems : list any)
| map_any (entries : list (string * any))
| struct_any (fields : list (string * bool * any))
| marshaler_any (doc : option json)
| unsupported_any.

(** [[]any]: nil or a list. *)
Definition slice := option (list any).

Definition len (s : slice) : Z :=
  match s with None => 0 | Some l => Z.of_nat (List.length l) end.

Definition of_slice (s : slice) : any :=
  match s with None => nilslice_any | Some l => slice_any l end.

(** Struct fields by the static type of the field. *)
Definition field_slice (key : string) (omitempty : bool) (s : slice)
  : string * bool * any := (key, omitempty && (len s =? 0), of_slice s).

Definition field_int (key : string) (omitempty : bool) (i : Z)
  : string * bool * any := (key, omitempty && (i =? 0), int_any i).

Definition field_float64 (key : string) (omitempty : bool) (f : float64)
  : string * bool * any := (key, omitempty && float64_is_zero f, float64_any f).

Definition field_any (key : string) (omitempty : bool) (v : any)
  : string * bool * any :=
  (key, omitempty && match v with nil_any => true | _ => false end, v).

(** [m[k] = v] on a map. *)
Fixpoint map_set (k : string) (v : any) (m : list (string * any))
  : list (string * any) :=
  match m with
  | [] => [(k, v)]
  | (k', v') :: m' =>
      if String.eqb k k' then (k, v) :: m' else (k', v') :: map_set k v m'
  end.

(** Object members in the order [json.Marshal] writes the keys of a map:
    sorted as strings. *)
Fixpoint insert_member (kv : string * json) (l : list (string * json))
  : list (string * json) :=
  match l with
  | [] => [kv]
  | kv' :: l' =>
      if String.leb (fst kv) (fst kv') then kv :: l else kv' :: insert_member kv l'
  end.

Definition sort_members (l : list (string * json)) : list (string * json) :=
  fold_right insert_member [] l.

(** [json.Marshal], up to the document it writes; [None] is an error. *)
Fixpoint Marshal (v : any) : option json :=
  match v with
  | nil_any => Some JNull
  | bool_any b => Some (JBool b)
  | int_any i => Some (JInt i)
  | float64_any f => if float64_is_finite f then Some (JFloat f) else None
  | string_any s => Some (JString s)
  | nilslice_any => Some JNull
  | slice_any l =>
      option_map JArray
        ((fix elems (l : list any) : option (list json) :=
            match l with
            | [] => Some []
            | x :: l' =>
                match Marshal x, elems l' with
                | Some j, Some js => Some (j :: js)
                | _, _ => None
                end
            end) l)
  | map_any m =>
      option_map (fun ms => JObject (sort_members ms))
        ((fix entries (m : list (string * any)) : option (list (string * json)) :=
            match m with
            | [] => Some []
            | (k, x) :: m' =>
                match Marshal x, entries m' with
                | Some j, Some js => Some ((k, j) :: js)
                | _, _ => None
                end
            end) m)
  | struct_any fs =>
      option_map JObject
        ((fix fields (fs : list (string * bool * any))
            : option (list (string * json)) :=
            match fs with
            | [] => Some []
            | (k, omitted, x) :: fs' =>
                if omitted then fields fs'
                else
                  match Marshal x, fields fs' with
                  | Some j, Some js => Some ((k, j) :: js)
                  | _, _ => None
                  end
            end) fs)
  | marshaler_any doc => doc
  | unsupported_any => None
  end.

(** ** The text of a document *)

Definition dquote : string := String "034"%char EmptyString.
Definition backslash : string := String "092"%char EmptyString.

Definition hex_digit (n : N) : ascii :=
  match String.get (N.to_nat n) "0123456789abcdef" with
  | Some c => c
  | None => "0"%char
  end.

(** [\u00XX] *)
Definition escape_u00 (n : N) : string :=
  (backslash ++ "u00"
     ++ String (hex_digit (n / 16)) (String (hex_digit (n mod 16)) EmptyString))%string.

(** The encoding of one byte of a string, as [json.Marshal] writes it
    (with HTML escaping, which [Marshal] switches on). Bytes from 128 on
    are copied: the model assumes valid UTF-8 without U+2028 and U+2029. *)
Definition escape_char (c : ascii) : string :=
  let n := N_of_ascii c in
  (if (n =? 34)%N then backslash ++ dquote
   else if (n =? 92)%N then backslash ++ backslash
   else if (n =? 8)%N then backslash ++ "b"
   else if (n =? 12)%N then backslash ++ "f"
   else if (n =? 10)%N then backslash ++ "n"
   else if (n =? 13)%N then backslash ++ "r"
   else if (n =? 9)%N then backslash ++ "t"
   else if (n <? 32)%N || (n =? 38)%N || (n =? 60)%N || (n =? 62)%N
   then escape_u00 n
   else String c EmptyString)%string.

Fixpoint escape (s : string) : string :=
  match s with
  | EmptyString => EmptyString
  | String c s' => (escape_char c ++ escape s')%string
  end.

Definition quote (s : string) : string := (dquote ++ escape s ++ dquote)%string.

Definition string_of_Z (i : Z) : string := NilZero.string_of_int (Z.to_int i).

Section Encode.

(** The digits [json.Marshal] writes for a finite [float64]
    ([strconv]'s shortest representation) are left open. *)
Variable format_float64 : float64 -> string.

Fixpoint encode (j : json) : string :=
  match j with
  | JNull => "null"
  | JBool b => if b then "true" else "false"
  | JInt i => string_of_Z i
  | JFloat f => format_float64 f
  | JString s => quote s
  | JArray l =>
      ("[" ++ String.concat ","
                ((fix elems (l : list json) : list string :=
                    match l with
                    | [] => []
                    | x :: l' => encode x :: elems l'
                    end) l) ++ "]")%string
  | JObject ms =>
      ("{" ++ String.concat ","
                ((fix members (ms : list (string * json)) : list string :=
                    match ms with
                    | [] => []
                    | (k, x) :: ms' => (quote k ++ ":" ++ encode x)%string :: members ms'
                    end) ms) ++ "}")%string
  end.

End Encode.

End JSON.

Module Query.

Import JSON.

Record BoolQuery := mkBoolQuery {
  Filter : slice;
  Must : slice;
  MustNot : slice;
  Should : slice;
  MinimumShouldMatch : Z;
  BoolQuery_Boost : float64
}.

Record ExistsQuery := mkExistsQuery { ExistsQuery_Field : string }.

Record TermQuery := mkTermQuery {
  TermQuery_Field : string;
  TermQuery_Value : any;
  TermQuery_Boost : float64
}.

Record TermsQuery := mkTermsQuery {
  TermsQuery_Field : string;
  Values : slice;
  TermsQuery_Boost : float64
}.

Record MatchPhraseQuery := mkMatchPhraseQuery {
  MatchPhraseQuery_Field : string;
  MatchPhraseQuery_Value : any
}.

(** [m := map[string]any{k: v}; return json.Marshal(m)] *)
Definition encodeQueryJSON (k : string) (v : any) : option json :=
  Marshal (map_any [(k, v)]).

(** The local struct type [boolQuery] with its tags, converted from [q]. *)
Definition boolQuery (q : BoolQuery) : any :=
  struct_any
    [ field_slice "filter" true (Filter q);
      field_slice "must" true (Must q);
      field_slice "must_not" true (MustNot q);
      field_slice "should" true (Should q);
      field_int "minimum_should_match" true (MinimumShouldMatch q);
      field_float64 "boost" true (BoolQuery_Boost q) ].

Definition BoolQuery_MarshalJSON (q : BoolQuery) : option json :=
  encodeQueryJSON "bool" (boolQuery q).

Definition ExistsQuery_MarshalJSON (q : ExistsQuery) : option json :=
  encodeQueryJSON "exists"
    (map_any [("field"%string, string_any (ExistsQuery_Field q))]).

(** The local struct type [termQuery] with its tags. *)
Definition termQuery (value : any) (boost : float64) : any :=
  struct_any [ field_any "value" false value; field_float64 "boost" true boost ].

Definition TermQuery_MarshalJSON (q : TermQuery) : option json :=
  encodeQueryJSON "term"
    (map_any [(TermQuery_Field q, termQuery (TermQuery_Value q) (TermQuery_Boost q))]).

Definition TermsQuery_MarshalJSON (q : TermsQuery) : option json :=
  let args := [(TermsQuery_Field q, of_slice (Values q))] in
  let args :=
    if negb (float64_is_zero (TermsQuery_Boost q))
    then map_set "boost" (float64_any (TermsQuery_Boost q)) args
    else args in
  encodeQueryJSON "terms" (map_any args).

Definition MatchPhraseQuery_MarshalJSON (q : MatchPhraseQuery) : option json :=
  encodeQueryJSON "match_phrase"
    (map_any [(MatchPhraseQuery_Field q, MatchPhraseQuery_Value q)]).

(** The five builders as one type, and a builder as a value placed in a
    [[]any] or a [Value] field. *)
Inductive Builder :=
| Bool (q : BoolQuery)
| Exists (q : ExistsQuery)
| Term (q : TermQuery)
| Terms (q : TermsQuery)
| MatchPhrase (q : MatchPhraseQuery).

Definition MarshalJSON (b : Builder) : option json :=
  match b with
  | Bool q => BoolQuery_MarshalJSON q
  | Exists q => ExistsQuery_MarshalJSON q
  | Term q => TermQuery_MarshalJSON q
  | Terms q => TermsQuery_MarshalJSON q
  | MatchPhrase q => MatchPhraseQuery_MarshalJSON q
  end.

Definition kind (b : Builder) : string :=
  match b with
  | Bool _ => "bool"
  | Exists _ => "exists"
  | Term _ => "term"
  | Terms _ => "terms"
  | MatchPhrase _ => "match_phrase"
  end.

Definition as_any (b : Builder) : any := marshaler_any (MarshalJSON b).

End Query.

(* ================================================================== *)
(** * Concrete clusters, used to exercise the statements below *)
(* ================================================================== *)

Module Example.

Definition ms (n : N) : N := (n * 1000000)%N.

(** A response with the given status and body. *)
Definition reply (status : Z) (body : string) : Response :=
  {| resp_StatusCode := status; resp_Body := NewReader (bytes_of body) |}.

(** The reason phrases of the statuses used below. *)
Definition reason (status : Z) : string :=
  if status =? 200 then "OK"
  else if status =? 202 then "Accepted"
  else if status =? 503 then "Service Unavailable"
  else "".

(** The destination is a byte slice that receives the body as it is. *)
Definition keep_body (b : bytes) (d : bytes) : bytes * option error := (b, None).

Definition cluster (trips : nat -> RoundTrip) (coin : bool) : Env bytes :=
  {| server := fun n _ => trips n;
     Unmarshal := keep_body;
     StatusText := reason;
     race := fun _ => coin |}.

(** A search request with a body. *)
Definition search : Request :=
  {| req_Body := Some (NewReader (bytes_of "{query}")) |}.

(** The index answers 202 until the document is there, on the third
    request; every round trip takes 10ms. *)
Definition indexing (n : nat) : RoundTrip :=
  {| elapsed := ms 10;
     answer := inl (match n with
                    | 0%nat | 1%nat => reply 202 "pending"
                    | _ => reply 200 "found"
                    end) |}.

(** The condition of the caller: status 200. It counts its calls. *)
Definition is_found : ConditionFunc nat :=
  fun resp calls => (resp_StatusCode resp =? 200, S calls).

Definition indexing_resp (n : nat) : Response :=
  match n with
  | 0%nat | 1%nat => reply 202 "pending"
  | _ => reply 200 "found"
  end.

Definition indexing_dst (n : nat) : option bytes :=
  match n with
  | 0%nat => Some []
  | 1%nat | 2%nat => Some (bytes_of "pending")
  | _ => Some (bytes_of "found")
  end.

(** The second request is refused by the network. *)
Definition refusing (n : nat) : RoundTrip :=
  {| elapsed := ms 10;
     answer := match n with
               | 0%nat => inl (reply 202 "pending")
               | _ => inr (other_error "connection refused")
               end |}.

(** The second request is answered 503. *)
Definition failing (n : nat) : RoundTrip :=
  {| elapsed := ms 10;
     answer := inl (match n with
                    | 0%nat => reply 202 "pending"
                    | _ => reply 503 "unavailable"
                    end) |}.

(** The context of the caller expires during the round trip, and the
    transport returns [context.DeadlineExceeded]. *)
Definition expiring (n : nat) : RoundTrip :=
  {| elapsed := ms 10; answer := inr context_DeadlineExceeded |}.

(** The second round trip is slow: 100ms. *)
Definition slow_second (n : nat) : RoundTrip :=
  {| elapsed := match n with 1%nat => ms 100 | _ => ms 10 end;
     answer := inl (indexing_resp n) |}.

(** The document never arrives. *)
Definition never (n : nat) : RoundTrip :=
  {| elapsed := ms 10; answer := inl (reply 202 "pending") |}.

(** Two stubs that log their names, for [AllCondition]. *)
Definition stub (name : string) (verdict : bool) : ConditionFunc (list string) :=
  fun _ log => (verdict, (log ++ [name])%list).


(** A decoder that merges: like [json.Unmarshal] into a map or a struct
    it keeps what the destination held and adds what the body brings. *)
Definition merge_body (b : bytes) (d : bytes) : bytes * option error :=
  ((d ++ b)%list, None).

End Example.

(* ================================================================== *)
(** * Lemmas: the clock *)
(* ================================================================== *)

Lemma after_tick_bounds tk t :
  0 < period tk -> next tk <= t ->
  period (after_tick tk t) = period tk /\
  t < next (after_tick tk t) <= t + period tk.
Proof.
  intros Hp Hn. unfold after_tick; simpl. split; [reflexivity|].
  pose proof (Z.div_mod (t - next tk) (period tk) ltac:(lia)) as Hdm.
  pose proof (Z.mod_pos_bound (t - next tk) (period tk) Hp) as Hb.
  nia.
Qed.

Lemma select_nil_channel tk now coin :
  select None tk now coin =
  (TickFired, Z.max now (next tk), after_tick tk (Z.max now (next tk))).
Proof. reflexivity. Qed.

Lemma select_before_deadline d tk now coin :
  Z.max now (next tk) < d ->
  select (Some d) tk now coin =
  (TickFired, Z.max now (next tk), after_tick tk (Z.max now (next tk))).
Proof.
  intros H. unfold select.
  destruct (Z.ltb_spec (Z.max now d) (Z.max now (next tk))); [lia|].
  destruct (Z.ltb_spec (Z.max now (next tk)) (Z.max now d)); [reflexivity|lia].
Qed.

Lemma select_timeout_expired d tk now coin f t tk' :
  select (Some d) tk now coin = (f, t, tk') -> f = TimeoutFired -> d <= t /\ now <= t.
Proof.
  unfold select. intros H Hf.
  destruct (Z.max now d <? Z.max now (next tk)).
  - inversion H; subst. lia.
  - destruct (Z.max now (next tk) <? Z.max now d).
    + inversion H; subst; discriminate.
    + destruct coin; inversion H; subst; try discriminate. lia.
Qed.

(** The timer wins the select when it is due strictly before the tick
    can be received, whatever the choice; and on a tie when chosen. *)
Lemma select_deadline_first d tk now coin :
  Z.max now d < Z.max now (next tk) \/
  (Z.max now d = Z.max now (next tk) /\ coin = true) ->
  select (Some d) tk now coin = (TimeoutFired, Z.max now d, tk).
Proof.
  intros H. unfold select.
  destruct (Z.ltb_spec (Z.max now d) (Z.max now (next tk))) as [H1|H1];
    [reflexivity|].
  destruct (Z.ltb_spec (Z.max now (next tk)) (Z.max now d)) as [H2|H2]; [lia|].
  destruct H as [H|[_ ->]]; [lia|reflexivity].
Qed.

(** A tick is received either before the timer is due, or on a tie that
    the choice gave to the ticker. *)
Lemma select_tick_taken d tk now coin t tk' :
  select (Some d) tk now coin = (TickFired, t, tk') ->
  t = Z.max now (next tk) /\
  (t < d \/ (Z.max now (next tk) = Z.max now d /\ coin = false)).
Proof.
  unfold select.
  destruct (Z.ltb_spec (Z.max now d) (Z.max now (next tk))) as [H1|H1];
    [discriminate|].
  destruct (Z.ltb_spec (Z.max now (next tk)) (Z.max now d)) as [H2|H2].
  - intros H; inversion H; subst. split; [reflexivity|]. left. lia.
  - destruct coin; [discriminate|]. intros H; inversion H; subst.
    split; [reflexivity|]. right. split; [lia|reflexivity].
Qed.

Section Runs.
Context {U D : Type}.
Variable E : Env D.

(** ** The transports *)

Lemma deliver_eq w B :
  deliver E w B = (answer (server E (List.length (sent w)) B), delivered E w B).
Proof. reflexivity. Qed.

Lemma Request_Do_plain r0 w :
  readable r0 ->
  exists rq',
    Request_Do E r0 esClient w =
    (answer (server E (List.length (sent w)) (body_of r0)), rq', esClient,
     delivered E w (body_of r0)).
Proof.
  destruct r0 as [[rd|]]; unfold readable, body_of, Request_Do; simpl; intros Hr.
  - unfold ReadAll. rewrite Hr. eexists; reflexivity.
  - eexists; reflexivity.
Qed.

Lemma Request_Do_first r0 w :
  readable r0 ->
  exists rq' tr',
    Request_Do E r0 (bodyRepeater esClient None) w =
    (answer (server E (List.length (sent w)) (body_of r0)), rq', tr',
     delivered E w (body_of r0)) /\
    replaying r0 tr' rq'.
Proof.
  destruct r0 as [[rd|]]; unfold readable, body_of, Request_Do, replaying; simpl; intros Hr.
  - unfold ReadAll. rewrite Hr. simpl. do 2 eexists; split; reflexivity || (split; reflexivity).
  - do 2 eexists; split; [reflexivity|split; reflexivity].
Qed.

Lemma Request_Do_again r0 tr rq w :
  replaying r0 tr rq ->
  exists rq' tr',
    Request_Do E rq tr w =
    (answer (server E (List.length (sent w)) (body_of r0)), rq', tr',
     delivered E w (body_of r0)) /\
    replaying r0 tr' rq'.
Proof.
  unfold replaying, body_of, Request_Do. destruct r0 as [[rd|]]; simpl; intros [-> ->]; simpl.
  - do 2 eexists; split; [reflexivity|split; reflexivity].
  - do 2 eexists; split; [reflexivity|split; reflexivity].
Qed.


(** ** One attempt *)

Lemma settle_answered ro (st : LoopState U D) resp d' :
  IsError resp = false ->
  rerr (resp_Body resp) = None ->
  decode E (rest (resp_Body resp)) (out st) = (d', None) ->
  settle E ro (inl resp) st =
  match cond ro with
  | None => inr {| outcome := Return (Some (seen resp)) None; final := set_out d' st |}
  | Some c =>
      let (b, u') := c (seen resp) (ustate st) in
      let st4 := set_ustate u' (set_out d' st) in
      if b then inr {| outcome := Return (Some (seen resp)) None; final := st4 |}
      else
        match tickerC st with
        | Some _ => inl st4
        | None =>
            match NewTicker (interval ro) (now (wire st)) with
            | None => inr {| outcome := Panic "non-positive interval for NewTicker";
                             final := st4 |}
            | Some tk => inl (set_ticker tk st4)
            end
        end
  end.
Proof.
  intros He Hr Hd. unfold settle. rewrite He. unfold ReadAll. rewrite Hr, Hd.
  reflexivity.
Qed.

Variable ro : requestOptions U.
Variable r0 : Request.
Variable dst : nat -> option D.
Variable us : nat -> U.

#[local] Abbreviation B := (body_of r0).
#[local] Abbreviation I := (interval ro).

Lemma polled_start o u :
  dst 0%nat = o -> us 0%nat = u -> polled E ro r0 dst us 0 (start ro r0 o u).
Proof. intros <- <-. constructor; simpl; auto. Qed.

(** From a polled state the next pass gets through its wait and its
    request: what is left of it is [settle] on the answer of round trip
    [n]. *)
Lemma attempt_starts n st :
  readable r0 -> (n = 0%nat \/ 0 < I) -> polled E ro r0 dst us n st ->
  (n = 0%nat \/ allows E ro B n) ->
  exists st2 t1,
    iteration E ro (timerOf ro) st = settle E ro (answer (server E n B)) st2 /\
    attempts st2 = S n /\
    sent (wire st2) = repeat B (S n) /\
    out st2 = dst n /\ ustate st2 = us n /\
    (cond ro <> None -> replaying r0 (transport st2) (req st2)) /\
    now (wire st2) = t1 + Z.of_N (elapsed (server E n B)) /\
    t1 <= spent E B n + Z.of_nat n * I /\
    match n with
    | O => tickerC st2 = None
    | S _ => exists tk, tickerC st2 = Some tk /\ period tk = I /\ next tk <= t1 + I
    end.
Proof.
  intros Hr HI [Ha Hs Ho Hu Ht Hc] Hallow.
  assert (Hlen : List.length (sent (wire st)) = n) by (rewrite Hs; apply repeat_length).
  destruct n as [|m].
  - destruct Hc as [Htk Hnow]. destruct Ht as [Htr Hrq].
    unfold iteration, wait. rewrite Htk, Htr, Hrq.
    assert (exists rq' tr',
      Request_Do E r0 (transportOf ro) (wire st) =
      (answer (server E 0 B), rq', tr', delivered E (wire st) B) /\
      (cond ro <> None -> replaying r0 tr' rq')) as (rq' & tr' & Hdo & Hrep).
    { unfold transportOf. destruct (cond ro).
      - destruct (Request_Do_first r0 (wire st) Hr) as (rq' & tr' & H1 & H2).
        rewrite Hlen in H1. eauto.
      - destruct (Request_Do_plain r0 (wire st) Hr) as (rq' & H1).
        rewrite Hlen in H1. exists rq', esClient. split; [exact H1|congruence]. }
    rewrite Hdo. eexists; exists 0. split; [reflexivity|]. simpl.
    rewrite Hlen, Ha, Hs, Hnow. repeat split; auto. lia.
  - destruct Hc as (tk & Htk & Hp & Hnx & Hnow).
    destruct Hallow as [Hz | Hal]; [discriminate|].
    destruct HI as [Hz | HI]; [discriminate|].
    set (t1 := Z.max (now (wire st)) (next tk)).
    assert (Hsel : select (timerOf ro) tk (now (wire st)) (race E (attempts st)) =
                   (TickFired, t1, after_tick tk t1)).
    { destruct Hal as [Hnone | Hlt].
      - rewrite Hnone. apply select_nil_channel.
      - unfold timerOf in *. destruct (cond ro); [|apply select_nil_channel].
        destruct (0 <? timeout ro); [|apply select_nil_channel].
        apply select_before_deadline. fold t1.
        simpl spent in *. subst t1. lia. }
    unfold iteration, wait. rewrite Htk, Hsel. cbv beta iota.
    destruct (Request_Do_again r0 (transport st) (req st)
                {| now := t1; sent := sent (wire st) |} Ht)
      as (rq' & tr' & Hdo & Hrep).
    cbn [sent] in Hdo. rewrite Hlen in Hdo.
    unfold set_clock at 1 2 3; cbn [req transport wire]. rewrite Hdo.
    eexists; exists t1. split; [reflexivity|].
    unfold set_attempt, set_clock, delivered;
      cbn [attempts wire sent out ustate transport req tickerC now].
    rewrite Ha, Hs.
    destruct (after_tick_bounds tk t1) as (Hp' & Hlo & Hhi); [lia|subst t1; lia|].
    rewrite repeat_length.
    repeat split; auto.
    + rewrite <- repeat_cons. reflexivity.
    + subst t1. simpl spent in *. lia.
    + exists (after_tick tk t1). repeat split; auto; lia.
Qed.


Lemma spent_mono n m : (m <= n)%nat -> spent E B m <= spent E B n.
Proof. induction 1; simpl; lia. Qed.

Lemma allows_mono n m : 0 < I -> (m <= n)%nat -> allows E ro B n -> allows E ro B m.
Proof.
  intros HI Hle [Hn | Hlt]; [left; exact Hn|right].
  pose proof (spent_mono n m Hle). nia.
Qed.

(** A pass that starts from a polled state, succeeds and finds the
    condition false leads to the next polled state. *)
Lemma poll_step n st c resp :
  readable r0 -> 0 < I -> cond ro = Some c ->
  polled E ro r0 dst us n st ->
  (n = 0%nat \/ allows E ro B n) ->
  succeeds E B n resp (dst n) (dst (S n)) ->
  c (seen resp) (us n) = (false, us (S n)) ->
  exists st', iteration E ro (timerOf ro) st = inl st' /\ polled E ro r0 dst us (S n) st'.
Proof.
  intros Hr HI Hc Hp Hal (Ha & He & Hb & Hd) Hf.
  destruct (attempt_starts n st Hr (or_intror HI) Hp Hal)
    as (st2 & t1 & Hit & Hat & Hs & Ho & Hu & Hrep & Hnow & Ht1 & Htk).
  rewrite Hit, Ha. rewrite <- Ho in Hd.
  rewrite (settle_answered ro st2 resp (dst (S n)) He Hb Hd), Hc, Hu, Hf.
  cbv beta iota.
  assert (Hrep' : replaying r0 (transport st2) (req st2)) by (apply Hrep; congruence).
  destruct n as [|m].
  - rewrite Htk. unfold NewTicker.
    destruct (Z.leb_spec I 0); [lia|].
    eexists; split; [reflexivity|].
    constructor; simpl; auto.
    cbn [spent] in Ht1. eexists; repeat split; try reflexivity; simpl; lia.
  - destruct Htk as (tk & Htk & Hper & Hnx). rewrite Htk.
    eexists; split; [reflexivity|].
    constructor; cbn [attempts wire sent out ustate transport req tickerC now
                      set_ustate set_out]; auto.
    exists tk. repeat split; auto; try lia.
    rewrite Hnow. cbn [spent]. cbn [spent] in Ht1. lia.
Qed.

(** [n] unsatisfied attempts take the loop from its start to a polled
    state. *)
Lemma polls_reach n resp :
  readable r0 -> 0 < I ->
  unsatisfied E (cond ro) B n resp dst us ->
  (forall i, (0 < i < n)%nat -> allows E ro B i) ->
  exists st, polled E ro r0 dst us n st /\
    forall fuel, loop E ro (timerOf ro) (n + fuel) (start ro r0 (dst 0%nat) (us 0%nat))
                 = loop E ro (timerOf ro) fuel st.
Proof.
  intros Hr HI. induction n as [|n IH]; intros Hun Hal.
  - exists (start ro r0 (dst 0%nat) (us 0%nat)). split; [|reflexivity].
    apply polled_start; reflexivity.
  - destruct IH as (st & Hp & Hl).
    + intros i Hi. apply Hun. lia.
    + intros i Hi. apply Hal. lia.
    + destruct (Hun n ltac:(lia)) as (Hsuc & c & Hc & Hf).
      destruct (poll_step n st c (resp n) Hr HI Hc Hp) as (st' & Hit & Hp'); auto.
      { destruct n; [left; reflexivity|right; apply Hal; lia]. }
      exists st'. split; [exact Hp'|].
      intros fuel. replace (S n + fuel)%nat with (n + S fuel)%nat by lia.
      rewrite Hl. simpl. rewrite Hit. reflexivity.
Qed.

(** After [n] unsatisfied attempts, the call is what attempt [n] makes of
    it: [settle] on the answer of round trip [n]. *)
Lemma attempt_reached n resp fuel :
  readable r0 -> 0 < I ->
  unsatisfied E (cond ro) B n resp dst us ->
  allows E ro B n ->
  exists st2,
    loop E ro (timerOf ro) (n + S fuel) (start ro r0 (dst 0%nat) (us 0%nat)) =
    match settle E ro (answer (server E n B)) st2 with
    | inr f => f
    | inl st' => loop E ro (timerOf ro) fuel st'
    end /\
    attempts st2 = S n /\ sent (wire st2) = repeat B (S n) /\
    out st2 = dst n /\ ustate st2 = us n.
Proof.
  intros Hr HI Hun Hal.
  destruct (polls_reach n resp Hr HI Hun) as (st & Hp & Hl).
  { intros i Hi. apply (allows_mono n i HI); [lia|exact Hal]. }
  destruct (attempt_starts n st Hr (or_intror HI) Hp (or_intror Hal))
    as (st2 & t1 & Hit & Hat & Hs & Ho & Hu & _).
  exists st2. rewrite Hl. simpl. rewrite Hit. auto.
Qed.


(** ** What any pass does *)

Lemma settle_continues a (st st' : LoopState U D) :
  settle E ro a st = inl st' ->
  cond ro <> None /\ tickerC st' <> None /\
  wire st' = wire st /\ attempts st' = attempts st /\
  transport st' = transport st /\ req st' = req st /\
  (out st' = None <-> out st = None).
Proof.
  unfold settle, decode, ReadAll, NewTicker.
  destruct a as [resp|e]; [|discriminate].
  destruct (IsError resp); [discriminate|].
  destruct (rerr (resp_Body resp)); [discriminate|].
  destruct (out st) as [d|] eqn:Ho.
  - destruct (Unmarshal E (rest (resp_Body resp)) d) as [d' [e|]]; [discriminate|].
    destruct (cond ro) as [c|]; [|discriminate].
    destruct (c _ _) as [[] u']; [discriminate|].
    cbn [tickerC set_ustate set_out].
    destruct (tickerC st) eqn:Htk.
    + intros H; inversion H; subst; clear H; simpl. rewrite Htk.
      repeat split; try congruence.
    + destruct (interval ro <=? 0); [discriminate|].
      intros H; inversion H; subst; clear H; simpl.
      repeat split; try congruence.
  - destruct (cond ro) as [c|]; [|discriminate].
    destruct (c _ _) as [[] u']; [discriminate|].
    cbn [tickerC set_ustate set_out].
    destruct (tickerC st) eqn:Htk.
    + intros H; inversion H; subst; clear H; simpl. rewrite Htk.
      repeat split; try congruence.
    + destruct (interval ro <=? 0); [discriminate|].
      intros H; inversion H; subst; clear H; simpl.
      repeat split; try congruence.
Qed.

Lemma settle_ends a (st : LoopState U D) f :
  settle E ro a st = inr f ->
  settled E ro a st f /\
  wire (final f) = wire st /\ attempts (final f) = attempts st /\
  transport (final f) = transport st /\ req (final f) = req st /\
  (out (final f) = None <-> out st = None).
Proof.
  unfold settle, settled, decode, ReadAll, NewTicker, seen, reinstate.
  destruct a as [resp|e].
  2:{ intros H; inversion H; subst; clear H; simpl. intuition. }
  destruct (IsError resp) eqn:He.
  { intros H; inversion H; subst; clear H; simpl. intuition eauto 10. }
  destruct (rerr (resp_Body resp)) as [e|] eqn:Hre.
  { intros H; inversion H; subst; clear H; simpl. intuition eauto 10. }
  destruct (out st) as [d|] eqn:Ho.
  - destruct (Unmarshal E (rest (resp_Body resp)) d) as [d' [e|]] eqn:Hu.
    { intros H; inversion H; subst; clear H; simpl.
      split; [|intuition congruence].
      right. exists resp. split; [reflexivity|]. right; right.
      exists d. rewrite Hu. auto. }
    destruct (cond ro) as [c|] eqn:Hc.
    + destruct (c _ _) as [[] u'].
      * intros H; inversion H; subst; clear H; simpl.
        split; [|intuition congruence]. exists resp. rewrite Hu. auto.
      * cbn [tickerC set_ustate set_out]. destruct (tickerC st); [discriminate|].
        destruct (Z.leb_spec (interval ro) 0) as [Hle|Hgt]; [|discriminate].
        intros H; inversion H; subst; clear H; simpl.
        split; [|intuition congruence]. split; [lia|congruence].
    + intros H; inversion H; subst; clear H; simpl.
      split; [|intuition congruence]. exists resp. rewrite Hu. auto.
  - destruct (cond ro) as [c|] eqn:Hc.
    + destruct (c _ _) as [[] u'].
      * intros H; inversion H; subst; clear H; simpl.
        split; [|intuition congruence]. exists resp. auto.
      * cbn [tickerC set_ustate set_out]. destruct (tickerC st); [discriminate|].
        destruct (Z.leb_spec (interval ro) 0) as [Hle|Hgt]; [|discriminate].
        intros H; inversion H; subst; clear H; simpl.
        split; [|intuition congruence]. split; [lia|congruence].
    + intros H; inversion H; subst; clear H; simpl.
      split; [|intuition congruence]. exists resp. auto.
Qed.


Lemma wait_passes tC (st st1 : LoopState U D) :
  wait E tC st = inl st1 ->
  attempts st1 = attempts st /\ sent (wire st1) = sent (wire st) /\
  transport st1 = transport st /\ req st1 = req st /\
  out st1 = out st /\ ustate st1 = ustate st /\
  (tickerC st = None -> st1 = st).
Proof.
  unfold wait. destruct (tickerC st) as [tk|].
  - destruct (select _ _ _ _) as [[[] t] tk']; [discriminate|].
    intros H; inversion H; subst; simpl. intuition discriminate.
  - intros H; inversion H; subst. intuition.
Qed.

Lemma wait_expires tC (st : LoopState U D) f :
  wait E tC st = inr f ->
  exists tk d t tk',
    tickerC st = Some tk /\ tC = Some d /\
    select tC tk (now (wire st)) (race E (attempts st)) = (TimeoutFired, t, tk') /\
    f = {| outcome := Return None (Some context_DeadlineExceeded);
           final := set_clock t (Some tk') st |} /\
    d <= t.
Proof.
  unfold wait. destruct (tickerC st) as [tk|]; [|discriminate].
  destruct (select _ _ _ _) as [[[] t] tk'] eqn:Hs; [|discriminate].
  intros H; inversion H; subst; clear H.
  destruct tC as [d|]; [|rewrite select_nil_channel in Hs; discriminate].
  exists tk, d, t, tk'. repeat split; auto.
  destruct (select_timeout_expired _ _ _ _ _ _ _ Hs eq_refl); assumption.
Qed.

(** The two ways a pass ends the call, and the one way it goes on. *)
Lemma iteration_ends tC (st : LoopState U D) f :
  iteration E ro tC st = inr f ->
  wait E tC st = inr f \/
  exists st1 a rq' tr' w',
    wait E tC st = inl st1 /\
    Request_Do E (req st1) (transport st1) (wire st1) = (a, rq', tr', w') /\
    settle E ro a (set_attempt rq' tr' w' st1) = inr f.
Proof.
  unfold iteration. destruct (wait E tC st) as [st1|f'].
  - destruct (Request_Do E _ _ _) as [[[a rq'] tr'] w'] eqn:Hdo.
    intros H. right. exists st1, a, rq', tr', w'. auto.
  - intros H; inversion H; subst. left; reflexivity.
Qed.

Lemma iteration_continues tC (st st' : LoopState U D) :
  iteration E ro tC st = inl st' ->
  exists st1 a rq' tr' w',
    wait E tC st = inl st1 /\
    Request_Do E (req st1) (transport st1) (wire st1) = (a, rq', tr', w') /\
    settle E ro a (set_attempt rq' tr' w' st1) = inl st'.
Proof.
  unfold iteration. destruct (wait E tC st) as [st1|f']; [|discriminate].
  destruct (Request_Do E _ _ _) as [[[a rq'] tr'] w'] eqn:Hdo.
  intros H. exists st1, a, rq', tr', w'. auto.
Qed.

Lemma iteration_counts tC (st st' : LoopState U D) :
  iteration E ro tC st = inl st' ->
  attempts st' = S (attempts st) /\ cond ro <> None /\ tickerC st' <> None /\
  (out st' = None <-> out st = None).
Proof.
  intros H. destruct (iteration_continues _ _ _ H)
    as (st1 & a & rq' & tr' & w' & Hw & Hdo & Hs).
  destruct (settle_continues _ _ _ Hs) as (Hc & Htk & _ & Ha & _ & _ & Ho).
  destruct (wait_passes _ _ _ Hw) as (Ha1 & _ & _ & _ & Ho1 & _).
  simpl in Ha, Ho. rewrite Ha, Ha1, Ho, Ho1. intuition.
Qed.

Lemma loop_classified tC o fuel : forall st : LoopState U D,
  (out st = None <-> o = None) ->
  classified E ro o (loop E ro tC fuel st).
Proof using Type.
  induction fuel as [|fuel IH]; intros st Ho; [exact Logic.I|].
  simpl. destruct (iteration E ro tC st) as [st'|f] eqn:Hit.
  - apply IH. destruct (iteration_counts _ _ _ Hit) as (_ & _ & _ & Ho').
    exact (iff_trans Ho' Ho).
  - destruct (iteration_ends _ _ _ Hit) as [Hw | (st1 & a & rq' & tr' & w' & Hw & Hdo & Hs)].
    + destruct (wait_expires _ _ _ Hw) as (tk & d & t & tk' & _ & _ & _ & -> & _).
      exact Logic.I.
    + destruct (settle_ends _ _ _ Hs) as (Hset & _).
      destruct (wait_passes _ _ _ Hw) as (_ & _ & _ & _ & Ho1 & _).
      unfold classified. unfold settled in Hset.
      destruct (outcome f) as [[resp'|] [e|] | msg | ]; auto.
      destruct Hset as (resp & -> & -> & _ & _ & Hd). simpl in Hd |- *.
      split; [reflexivity|]. exists (out st1). split; [rewrite Ho1; exact Ho|exact Hd].
Qed.

Lemma loop_polling tC fuel : forall st : LoopState U D,
  outcome (loop E ro tC fuel st) = Polling ->
  attempts (final (loop E ro tC fuel st)) = (attempts st + fuel)%nat /\
  (fuel = 0%nat \/ cond ro <> None).
Proof.
  induction fuel as [|fuel IH]; intros st; simpl.
  - intros _. split; [lia|auto].
  - destruct (iteration E ro tC st) as [st'|f] eqn:Hit.
    + intros H. destruct (IH st' H) as (Ha & _).
      destruct (iteration_counts _ _ _ Hit) as (Ha' & Hc & _).
      split; [lia|auto].
    + intros H. exfalso.
      destruct (iteration_ends _ _ _ Hit) as [Hw | (st1 & a & rq' & tr' & w' & Hw & Hdo & Hs)].
      * destruct (wait_expires _ _ _ Hw) as (tk & d & t & tk' & _ & _ & _ & -> & _).
        discriminate.
      * destruct (settle_ends _ _ _ Hs) as (Hset & _). unfold settled in Hset.
        rewrite H in Hset. exact Hset.
Qed.


(** ** Where a deadline error can come from *)

Lemma Perform_origin tr : forall body w a body' tr' w',
  Perform E tr body w = (a, body', tr', w') ->
  (clean_body body -> clean_body body') /\
  ((exists n b, a = answer (server E n b)) \/
   (exists rd e, body = Some rd /\ rerr rd = Some e /\ a = inr e)).
Proof.
  induction tr as [|t IH gb]; intros body w a body' tr' w'; simpl.
  - destruct body as [rd|].
    + unfold ReadAll. destruct (rerr rd) as [e|] eqn:Hre.
      * intros H; inversion H; subst; clear H. split.
        -- intros Hc rd' Hrd'. inversion Hrd'; subst. simpl. rewrite Hre.
           rewrite <- Hre. apply Hc. reflexivity.
        -- right. eauto.
      * rewrite ?deliver_eq. intros H; inversion H; subst; clear H. split.
        -- intros Hc rd' Hrd'. inversion Hrd'; subst. simpl. congruence.
        -- left. eauto.
    + rewrite ?deliver_eq. intros H; inversion H; subst; clear H. split.
      * intros _ rd' Hrd'. discriminate.
      * left. eauto.
  - destruct body as [rd|].
    + destruct gb as [data|].
      * destruct (Perform E t (Some (NewReader data)) w) as [[[a1 b1] t1] w1] eqn:Hp.
        intros H; inversion H; subst; clear H.
        destruct (IH _ _ _ _ _ _ Hp) as (_ & [Hans | (rd' & e & Hrd & Hre & _)]).
        -- split; [auto|left; exact Hans].
        -- inversion Hrd; subst. discriminate.
      * unfold ReadAll. destruct (rerr rd) as [e|] eqn:Hre.
        -- intros H; inversion H; subst; clear H. split.
           ++ intros Hc rd' Hrd'. inversion Hrd'; subst. simpl. rewrite Hre.
              rewrite <- Hre. apply Hc. reflexivity.
           ++ right. eauto.
        -- destruct (Perform E t (Some (NewReader (rest rd))) w) as [[[a1 b1] t1] w1] eqn:Hp.
           intros H; inversion H; subst; clear H.
           destruct (IH _ _ _ _ _ _ Hp) as (_ & [Hans | (rd' & e & Hrd & Hre' & _)]).
           ++ split; [|left; exact Hans].
              intros Hc rd' Hrd'. inversion Hrd'; subst. simpl. congruence.
           ++ inversion Hrd; subst. discriminate.
    + destruct (Perform E t None w) as [[[a1 b1] t1] w1] eqn:Hp.
      intros H; inversion H; subst; clear H.
      destruct (IH _ _ _ _ _ _ Hp) as (_ & [Hans | (rd' & e & Hrd & _)]).
      * split; [intros _ rd' Hrd'; discriminate|left; exact Hans].
      * discriminate.
Qed.

Lemma Request_Do_origin rq tr w a rq' tr' w' :
  Request_Do E rq tr w = (a, rq', tr', w') ->
  (clean_body (req_Body rq) -> clean_body (req_Body rq')) /\
  ((exists n b, a = answer (server E n b)) \/
   (exists rd e, req_Body rq = Some rd /\ rerr rd = Some e /\ a = inr e)).
Proof.
  unfold Request_Do.
  destruct (Perform E tr (req_Body rq) w) as [[[a1 b1] t1] w1] eqn:Hp.
  intros H; inversion H; subst; clear H. simpl.
  exact (Perform_origin _ _ _ _ _ _ _ Hp).
Qed.

Section Deadline.

Hypothesis server_clean : forall n b, answer (server E n b) <> inr context_DeadlineExceeded.
Hypothesis bodies_clean : forall n b resp, answer (server E n b) = inl resp ->
  rerr (resp_Body resp) <> Some context_DeadlineExceeded.
Hypothesis decoder_clean : forall b d, snd (Unmarshal E b d) <> Some context_DeadlineExceeded.

Lemma loop_deadline tC fuel : forall st : LoopState U D,
  clean_body (req_Body (req st)) ->
  (tickerC st <> None -> (1 <= attempts st)%nat) ->
  outcome (loop E ro tC fuel st) = Return None (Some context_DeadlineExceeded) ->
  exists d, tC = Some d /\
    d <= now (wire (final (loop E ro tC fuel st))) /\
    (1 <= attempts (final (loop E ro tC fuel st)))%nat.
Proof.
  induction fuel as [|fuel IH]; intros st Hcl Htk; simpl; [discriminate|].
  destruct (iteration E ro tC st) as [st'|f] eqn:Hit.
  - destruct (iteration_continues _ _ _ Hit)
      as (st1 & a & rq' & tr' & w' & Hw & Hdo & Hs).
    destruct (wait_passes _ _ _ Hw) as (_ & _ & _ & Hrq & _).
    destruct (settle_continues _ _ _ Hs) as (_ & _ & _ & _ & _ & Hrq' & _).
    destruct (Request_Do_origin _ _ _ _ _ _ _ Hdo) as (Hkeep & _).
    destruct (iteration_counts _ _ _ Hit) as (Ha & _).
    apply IH.
    + rewrite Hrq'. simpl. apply Hkeep. rewrite Hrq. exact Hcl.
    + intros _. lia.
  - intros Hout.
    destruct (iteration_ends _ _ _ Hit) as [Hw | (st1 & a & rq' & tr' & w' & Hw & Hdo & Hs)].
    + destruct (wait_expires _ _ _ Hw) as (tk & d & t & tk' & Htk' & -> & _ & -> & Hd).
      exists d. simpl. repeat split; auto. apply Htk. congruence.
    + exfalso.
      destruct (settle_ends _ _ _ Hs) as (Hset & _). unfold settled in Hset.
      rewrite Hout in Hset.
      destruct (wait_passes _ _ _ Hw) as (_ & _ & _ & Hrq & _).
      destruct (Request_Do_origin _ _ _ _ _ _ _ Hdo) as (_ & Horigin).
      destruct Hset as [Ha | (resp & Ha & [(_ & He) | [Hre | (d & _ & Hd)]])].
      * destruct Horigin as [(n & b & Hn) | (rd & e & Hrd & Hre & He)].
        -- apply (server_clean n b). congruence.
        -- rewrite Hrq in Hrd. apply (Hcl rd Hrd). congruence.
      * discriminate.
      * destruct Horigin as [(n & b & Hn) | (rd & e & _ & _ & He)]; [|congruence].
        apply (bodies_clean n b resp); congruence.
      * apply (decoder_clean _ _ Hd).
Qed.

End Deadline.

(** ** The bodies that reach the cluster *)

Lemma iteration_repeats tC (st : LoopState U D) :
  readable r0 -> repeating r0 st ->
  match iteration E ro tC st with
  | inl st' => repeating r0 st'
  | inr f => sent (wire (final f)) = repeat B (attempts (final f))
  end.
Proof.
  intros Hr (Hs & Ht).
  assert (Hdo : forall st1 a rq' tr' w',
    wait E tC st = inl st1 ->
    Request_Do E (req st1) (transport st1) (wire st1) = (a, rq', tr', w') ->
    sent w' = repeat B (S (attempts st)) /\ replaying r0 tr' rq').
  { intros st1 a rq' tr' w' Hw Hdo.
    destruct (wait_passes _ _ _ Hw) as (_ & Hs1 & Ht1 & Hrq1 & _).
    rewrite Ht1, Hrq1 in Hdo.
    assert (exists rq2 tr2,
      Request_Do E (req st) (transport st) (wire st1) =
      (answer (server E (List.length (sent (wire st1))) B), rq2, tr2,
       delivered E (wire st1) B) /\ replaying r0 tr2 rq2) as (rq2 & tr2 & Hdo2 & Hrep).
    { destruct (attempts st).
      - destruct Ht as [-> ->]. apply Request_Do_first; exact Hr.
      - apply Request_Do_again; exact Ht. }
    rewrite Hdo2 in Hdo. inversion Hdo; subst; clear Hdo.
    split; [|exact Hrep]. simpl. rewrite Hs1, Hs. rewrite <- repeat_cons. reflexivity. }
  destruct (iteration E ro tC st) as [st'|f] eqn:Hit.
  - destruct (iteration_continues _ _ _ Hit)
      as (st1 & a & rq' & tr' & w' & Hw & Hreq & Hset).
    destruct (Hdo _ _ _ _ _ Hw Hreq) as (Hsent & Hrep).
    destruct (settle_continues _ _ _ Hset) as (_ & _ & Hwire & Hat & Htr & Hrq & _).
    destruct (wait_passes _ _ _ Hw) as (Ha1 & _).
    simpl in Hwire, Hat, Htr, Hrq. unfold repeating.
    rewrite Hwire, Hat, Htr, Hrq, Ha1. split; [exact Hsent|exact Hrep].
  - destruct (iteration_ends _ _ _ Hit) as [Hw | (st1 & a & rq' & tr' & w' & Hw & Hreq & Hset)].
    + destruct (wait_expires _ _ _ Hw) as (tk & d & t & tk' & _ & _ & _ & -> & _).
      simpl. exact Hs.
    + destruct (Hdo _ _ _ _ _ Hw Hreq) as (Hsent & _).
      destruct (settle_ends _ _ _ Hset) as (_ & Hwire & Hat & _).
      destruct (wait_passes _ _ _ Hw) as (Ha1 & _).
      simpl in Hwire, Hat. rewrite Hwire, Hat, Ha1. exact Hsent.
Qed.

Lemma loop_repeats tC fuel : forall st : LoopState U D,
  readable r0 -> repeating r0 st ->
  sent (wire (final (loop E ro tC fuel st))) =
  repeat B (attempts (final (loop E ro tC fuel st))).
Proof.
  induction fuel as [|fuel IH]; intros st Hr Hrep; simpl.
  - apply Hrep.
  - pose proof (iteration_repeats tC st Hr Hrep) as H.
    destruct (iteration E ro tC st) as [st'|f]; [apply IH; assumption|exact H].
Qed.

(** ** The kinds of error a call ends with *)

Lemma Perform_keeps_failure tr : forall body w a body' tr' w',
  Perform E tr body w = (a, body', tr', w') ->
  forall rd', body' = Some rd' -> exists rd, body = Some rd /\ rerr rd' = rerr rd.
Proof.
  induction tr as [|t IH gb]; intros body w a body' tr' w'; simpl.
  - destruct body as [rd|].
    + unfold ReadAll. destruct (rerr rd) as [e|] eqn:Hre.
      * intros H; inversion H; subst; clear H; intros rd' Hrd'.
        inversion Hrd'; subst. exists rd. split; [reflexivity|reflexivity].
      * intros H; inversion H; subst; clear H; intros rd' Hrd'.
        inversion Hrd'; subst. exists rd. split; reflexivity.
    + intros H; inversion H; subst; clear H; intros rd' Hrd'. discriminate.
  - destruct body as [rd|].
    + destruct gb as [data|].
      * destruct (Perform E t (Some (NewReader data)) w) as [[[a1 b1] t1] w1].
        intros H; inversion H; subst; clear H; intros rd' Hrd'.
        inversion Hrd'; subst. exists rd'. split; reflexivity.
      * unfold ReadAll. destruct (rerr rd) as [e|] eqn:Hre.
        -- intros H; inversion H; subst; clear H; intros rd' Hrd'.
           inversion Hrd'; subst. exists rd. split; reflexivity.
        -- destruct (Perform E t (Some (NewReader (rest rd))) w) as [[[a1 b1] t1] w1].
           intros H; inversion H; subst; clear H; intros rd' Hrd'.
           inversion Hrd'; subst. exists rd. split; reflexivity.
    + destruct (Perform E t None w) as [[[a1 b1] t1] w1].
      intros H; inversion H; subst; clear H; intros rd' Hrd'. discriminate.
Qed.

Lemma Request_Do_keeps_failure r rq tr w a rq' tr' w' :
  Request_Do E rq tr w = (a, rq', tr', w') ->
  same_failure r rq -> same_failure r rq'.
Proof.
  unfold Request_Do.
  destruct (Perform E tr (req_Body rq) w) as [[[a1 b1] t1] w1] eqn:Hp.
  intros H Hs; inversion H; subst; clear H. intros rd' Hrd'. simpl in Hrd'.
  destruct (Perform_keeps_failure _ _ _ _ _ _ _ Hp rd' Hrd') as (rd1 & Hb & Hr).
  destruct (Hs rd1 Hb) as (rd & Hrd & Hr1). exists rd. split; congruence.
Qed.

Lemma loop_errors (r : Request) tC fuel : forall (st : LoopState U D) e,
  same_failure r (req st) ->
  outcome (loop E ro tC fuel st) = Return None (Some e) ->
  terminal_error E r e.
Proof using Type.
  induction fuel as [|fuel IH]; intros st e Hsame; simpl; [discriminate|].
  destruct (iteration E ro tC st) as [st'|f] eqn:Hit.
  - destruct (iteration_continues _ _ _ Hit)
      as (st1 & a & rq' & tr' & w' & Hw & Hdo & Hs).
    destruct (wait_passes _ _ _ Hw) as (_ & _ & _ & Hrq & _).
    destruct (settle_continues _ _ _ Hs) as (_ & _ & _ & _ & _ & Hrq' & _).
    apply IH. rewrite Hrq'. simpl.
    apply (Request_Do_keeps_failure r _ _ _ _ _ _ _ Hdo). rewrite Hrq. exact Hsame.
  - intros Hout.
    destruct (iteration_ends _ _ _ Hit)
      as [Hw | (st1 & a & rq' & tr' & w' & Hw & Hdo & Hs)].
    + destruct (wait_expires _ _ _ Hw) as (tk & d & t & tk' & _ & _ & _ & -> & _).
      simpl in Hout. inversion Hout; subst. left; reflexivity.
    + destruct (settle_ends _ _ _ Hs) as (Hset & _). unfold settled in Hset.
      rewrite Hout in Hset.
      destruct (wait_passes _ _ _ Hw) as (_ & _ & _ & Hrq & _).
      destruct (Request_Do_origin _ _ _ _ _ _ _ Hdo) as (_ & Horigin).
      right.
      destruct Hset as [Ha | (resp & Ha & Hkind)].
      * destruct Horigin as [(n & b & Hn) | (rd1 & e1 & Hrd & Hre & He)].
        -- right; left. exists n, b. congruence.
        -- left. rewrite Hrq in Hrd. destruct (Hsame rd1 Hrd) as (rd & Hr0 & Heq).
           exists rd. split; [exact Hr0|]. congruence.
      * right; right.
        destruct Horigin as [(n & b & Hn) | (rd1 & e1 & _ & _ & He)]; [|congruence].
        exists n, b, resp. split; [congruence|].
        destruct Hkind as [Happ | [Hre | (d & _ & Hd)]]; eauto.
Qed.
End Runs.

(** ** The destination, attempt by attempt *)

Section Attempts.
Context {U D : Type}.
Variable E : Env D.
Variable ro : requestOptions U.

Lemma Perform_answered tr : forall body w resp body' tr' w',
  Perform E tr body w = (inl resp, body', tr', w') ->
  exists b, sent w' = (sent w ++ [b])%list /\
            answer (server E (List.length (sent w)) b) = inl resp.
Proof.
  induction tr as [|t IH gb]; intros body w resp body' tr' w'; simpl.
  - destruct body as [rd|].
    + unfold ReadAll. destruct (rerr rd) as [e|]; [discriminate|].
      unfold deliver. intros H; inversion H; subst. eexists; split; [reflexivity|congruence].
    + unfold deliver. intros H; inversion H; subst. eexists; split; [reflexivity|congruence].
  - destruct body as [rd|].
    + destruct gb as [data|].
      * destruct (Perform E t (Some (NewReader data)) w) as [[[a1 b1] t1] w1] eqn:Hp.
        intros H; inversion H; subst. exact (IH _ _ _ _ _ _ Hp).
      * unfold ReadAll. destruct (rerr rd) as [e|]; [discriminate|].
        destruct (Perform E t (Some (NewReader (rest rd))) w) as [[[a1 b1] t1] w1] eqn:Hp.
        intros H; inversion H; subst. exact (IH _ _ _ _ _ _ Hp).
    + destruct (Perform E t None w) as [[[a1 b1] t1] w1] eqn:Hp.
      intros H; inversion H; subst. exact (IH _ _ _ _ _ _ Hp).
Qed.

Lemma Request_Do_answered rq tr w resp rq' tr' w' :
  Request_Do E rq tr w = (inl resp, rq', tr', w') ->
  exists b, sent w' = (sent w ++ [b])%list /\
            answer (server E (List.length (sent w)) b) = inl resp.
Proof.
  unfold Request_Do.
  destruct (Perform E tr (req_Body rq) w) as [[[a1 b1] t1] w1] eqn:Hp.
  intros H; inversion H; subst. exact (Perform_answered _ _ _ _ _ _ _ Hp).
Qed.

(** What [settle] has done when the attempt did not end in an error. *)
Lemma settle_written a (st : LoopState U D) :
  match settle E ro a st with
  | inl st' =>
      exists resp, a = inl resp /\ IsError resp = false /\
        rerr (resp_Body resp) = None /\
        written E (rest (resp_Body resp)) (out st) (out st')
  | inr f =>
      match outcome f with
      | Return (Some resp') None =>
          exists resp, a = inl resp /\ resp' = seen resp /\
            IsError resp = false /\ rerr (resp_Body resp) = None /\
            written E (rest (resp_Body resp)) (out st) (out (final f))
      | Polling => False
      | _ => True
      end
  end.
Proof.
  unfold settle, decode, ReadAll, NewTicker, written, seen, reinstate.
  destruct a as [resp|e]; [|exact Logic.I].
  destruct (IsError resp) eqn:He; [exact Logic.I|].
  destruct (rerr (resp_Body resp)) as [e|] eqn:Hre; [exact Logic.I|].
  destruct (out st) as [d|] eqn:Ho.
  - destruct (Unmarshal E (rest (resp_Body resp)) d) as [d' [e|]] eqn:Hu;
      [exact Logic.I|].
    destruct (cond ro) as [c|].
    + destruct (c _ _) as [[] u'].
      * simpl. exists resp. repeat split; auto. exists d'. auto.
      * cbn [tickerC set_ustate set_out]. destruct (tickerC st).
        -- simpl. exists resp. repeat split; auto. exists d'. auto.
        -- destruct (interval ro <=? 0); [exact Logic.I|].
           simpl. exists resp. repeat split; auto. exists d'. auto.
    + simpl. exists resp. repeat split; auto. exists d'. auto.
  - destruct (cond ro) as [c|].
    + destruct (c _ _) as [[] u'].
      * simpl. exists resp. repeat split; auto.
      * cbn [tickerC set_ustate set_out]. destruct (tickerC st).
        -- simpl. exists resp. repeat split; auto.
        -- destruct (interval ro <=? 0); [exact Logic.I|].
           simpl. exists resp. repeat split; auto.
    + simpl. exists resp. repeat split; auto.
Qed.

(** What a pass has done when it did not end in an error. *)
Lemma iteration_written tC (st : LoopState U D) :
  match iteration E ro tC st with
  | inl st' => exists resp, one_more E st st' resp
  | inr f =>
      match outcome f with
      | Return (Some resp') None =>
          exists resp, resp' = seen resp /\ one_more E st (final f) resp
      | Polling => False
      | _ => True
      end
  end.
Proof.
  destruct (iteration E ro tC st) as [st'|f] eqn:Hit.
  - destruct (iteration_continues _ _ _ _ _ Hit)
      as (st1 & a & rq' & tr' & w' & Hw & Hdo & Hs).
    destruct (wait_passes _ _ _ _ Hw) as (Ha1 & Hs1 & _ & _ & Ho1 & _).
    destruct (settle_continues _ _ _ _ _ Hs) as (_ & _ & Hwire & Hat & _).
    pose proof (settle_written a (set_attempt rq' tr' w' st1)) as Hsw.
    rewrite Hs in Hsw. destruct Hsw as (resp & -> & He & Hre & Hwr).
    destruct (Request_Do_answered _ _ _ _ _ _ _ Hdo) as (b & Hsent & Hans).
    exists resp, b. rewrite Hat, Hwire. cbn [attempts wire set_attempt out] in *.
    rewrite <- Hs1, <- Ha1, <- Ho1. auto 10.
  - destruct (iteration_ends _ _ _ _ _ Hit)
      as [Hw | (st1 & a & rq' & tr' & w' & Hw & Hdo & Hs)].
    + destruct (wait_expires _ _ _ _ Hw) as (tk & d & t & tk' & _ & _ & _ & -> & _).
      exact Logic.I.
    + destruct (wait_passes _ _ _ _ Hw) as (Ha1 & Hs1 & _ & _ & Ho1 & _).
      destruct (settle_ends _ _ _ _ _ Hs) as (_ & Hwire & Hat & _).
      pose proof (settle_written a (set_attempt rq' tr' w' st1)) as Hsw.
      rewrite Hs in Hsw.
      destruct (outcome f) as [[resp'|] [e|] | msg | ]; auto.
      destruct Hsw as (resp & -> & -> & He & Hre & Hwr).
      destruct (Request_Do_answered _ _ _ _ _ _ _ Hdo) as (b & Hsent & Hans).
      exists resp. split; [reflexivity|]. exists b. rewrite Hat, Hwire.
      cbn [attempts wire set_attempt out] in *.
      rewrite <- Hs1, <- Ha1, <- Ho1. auto 10.
Qed.

(** One more pass allowed: the loop goes on from where it was. *)
Lemma loop_snoc tC fuel : forall st : LoopState U D,
  loop E ro tC (S fuel) st =
  let g := loop E ro tC fuel st in
  match outcome g with
  | Polling =>
      match iteration E ro tC (final g) with
      | inl st' => {| outcome := Polling; final := st' |}
      | inr f => f
      end
  | _ => g
  end.
Proof.
  induction fuel as [|fuel IH]; intros st.
  - reflexivity.
  - change (loop E ro tC (S (S fuel)) st)
      with (match iteration E ro tC st with
            | inr f => f
            | inl st' => loop E ro tC (S fuel) st'
            end).
    change (loop E ro tC (S fuel) st)
      with (match iteration E ro tC st with
            | inr f => f
            | inl st' => loop E ro tC fuel st'
            end).
    pose proof (iteration_written tC st) as Hw.
    destruct (iteration E ro tC st) as [st'|f].
    + exact (IH st').
    + cbv zeta. destruct (outcome f) as [[resp'|] [e|] | msg | ]; try reflexivity.
      contradiction.
Qed.

(** A call that has ended ended in the pass that followed some number
    of passes that did not. *)
Lemma loop_last tC fuel : forall st : LoopState U D,
  outcome (loop E ro tC fuel st) <> Polling ->
  exists n, (n < fuel)%nat /\
    outcome (loop E ro tC n st) = Polling /\
    iteration E ro tC (final (loop E ro tC n st)) = inr (loop E ro tC fuel st).
Proof.
  intros st. induction fuel as [|fuel IH].
  - simpl. congruence.
  - rewrite loop_snoc. cbv zeta.
    destruct (outcome (loop E ro tC fuel st)) as [resp e | msg | ] eqn:Hout.
    + intros _. destruct IH as (n & Hn & Hp & Hit); [congruence|].
      exists n. split; [lia|]. split; [exact Hp|]. exact Hit.
    + intros _. destruct IH as (n & Hn & Hp & Hit); [congruence|].
      exists n. split; [lia|]. split; [exact Hp|]. exact Hit.
    + destruct (iteration E ro tC (final (loop E ro tC fuel st))) as [st'|f] eqn:Hit.
      * simpl. congruence.
      * intros _. exists fuel. split; [lia|]. split; [exact Hout|exact Hit].
Qed.

End Attempts.

(** The first pass of the loop: no wait, one request, and [settle] on
    its answer. *)
Lemma first_attempt {U D : Type} (E : Env D) (ro : requestOptions U)
  (r : Request) (o : option D) (u : U) :
  readable r ->
  exists st2,
    iteration E ro (timerOf ro) (start ro r o u) =
      settle E ro (answer (server E 0 (body_of r))) st2 /\
    attempts st2 = 1%nat /\ sent (wire st2) = [body_of r] /\
    out st2 = o /\ ustate st2 = u /\ tickerC st2 = None.
Proof.
  intros Hr.
  destruct (attempt_starts E ro r (fun _ => o) (fun _ => u) 0 (start ro r o u)
              Hr (or_introl eq_refl))
    as (st2 & t1 & Hit & Hat & Hs & Ho & Hu & _ & _ & _ & Htk).
  - apply polled_start; reflexivity.
  - left; reflexivity.
  - exists st2. repeat split; assumption.
Qed.

(** A timer is armed only with a condition and a positive timeout. *)
Lemma timerOf_armed {U : Type} (ro : requestOptions U) d :
  timerOf ro = Some d ->
  (exists c, cond ro = Some c) /\ 0 < timeout ro /\ d = timeout ro.
Proof.
  unfold timerOf. destruct (cond ro) as [c|]; [|discriminate].
  destruct (Z.ltb_spec 0 (timeout ro)) as [Hlt|Hge]; [|discriminate].
  intros H; inversion H; subst. eauto.
Qed.

(* ================================================================== *)
(** * Lemmas: the condition combinator *)
(* ================================================================== *)

Section AllConditionFacts.
Context {U : Type}.

Lemma AllCondition_all_true (conds : list (ConditionFunc U)) resp u u' :
  all_true resp conds u u' -> AllCondition conds resp u = (true, u').
Proof.
  induction 1 as [u | c cs u u1 u' Hc _ IH]; simpl; [reflexivity|].
  rewrite Hc. simpl. exact IH.
Qed.

Lemma AllCondition_true_inv (conds : list (ConditionFunc U)) resp : forall u u',
  AllCondition conds resp u = (true, u') -> all_true resp conds u u'.
Proof.
  induction conds as [|c cs IH]; simpl; intros u u' H.
  - inversion H; subst. constructor.
  - destruct (c resp u) as [[] u1] eqn:Hc; simpl in H; [|discriminate].
    econstructor; [exact Hc|apply IH; exact H].
Qed.

Lemma AllCondition_app (pre post : list (ConditionFunc U)) resp u u1 :
  all_true resp pre u u1 ->
  AllCondition (pre ++ post) resp u = AllCondition post resp u1.
Proof.
  induction 1 as [u | c cs u u1 u' Hc _ IH]; simpl; [reflexivity|].
  rewrite Hc. simpl. exact IH.
Qed.

Lemma AllCondition_pure (ps : list (Response -> bool)) resp (u : U) :
  AllCondition (map pure_cond ps) resp u = (forallb (fun p => p resp) ps, u).
Proof.
  induction ps as [|p ps IH]; simpl; [reflexivity|].
  unfold pure_cond at 1. destruct (p resp); simpl; [apply IH|reflexivity].
Qed.

End AllConditionFacts.

(* ================================================================== *)
(** * Lemmas: the query builders *)
(* ================================================================== *)

Lemma encodeQueryJSON_single_key k v doc :
  Query.encodeQueryJSON k v = Some doc -> exists j, doc = JSON.JObject [(k, j)].
Proof.
  unfold Query.encodeQueryJSON. cbn [JSON.Marshal].
  destruct (JSON.Marshal v) as [j|]; cbn [option_map JSON.sort_members fold_right
                                           JSON.insert_member]; [|discriminate].
  intros H; inversion H; subst. exists j. reflexivity.
Qed.

(* ================================================================== *)
(** * The properties of the specification *)
(* ================================================================== *)

(** C1. Eventual success. With a condition that is false on the first
    [n] attempts and true on attempt [n+1] (every one of these attempts
    succeeding), a positive interval, and a timeout that leaves room for
    the first [n] round trips each followed by a wait of one interval
    (or no timer at all), [Do] returns the response of attempt [n+1] and
    a nil error after exactly [n+1] attempts, whatever the number of
    passes it is allowed beyond that. *)
Theorem Do_eventual_success {U D : Type} (E : Env D) (r : Request)
  (opts : list (RequestOption U)) (c : ConditionFunc U) (n : nat)
  (resp : nat -> Response) (dst : nat -> option D) (us : nat -> U) (fuel : nat) :
  let ro := applyOptions opts in
  let B := body_of r in
  cond ro = Some c ->
  readable r ->
  0 < interval ro ->
  unsatisfied E (cond ro) B n resp dst us ->
  succeeds E B n (resp n) (dst n) (dst (S n)) ->
  c (seen (resp n)) (us n) = (true, us (S n)) ->
  allows E ro B n ->
  (n < fuel)%nat ->
  let f := Do E fuel r (dst 0%nat) opts (us 0%nat) in
  outcome f = Return (Some (seen (resp n))) None /\
  attempts (final f) = S n /\
  out (final f) = dst (S n).
Proof.
  intros ro B Hc Hr HI Hun (Ha & He & Hb & Hd) Ht Hal Hfuel f.
  destruct (attempt_reached E ro r dst us n resp (fuel - S n) Hr HI Hun Hal)
    as (st2 & Hl & Hat & _ & Ho & Hu).
  subst f. unfold Do. fold ro.
  replace fuel with (n + S (fuel - S n))%nat at 1 2 3 by lia.
  rewrite Hl. fold B. rewrite Ha. rewrite <- Ho in Hd.
  rewrite (settle_answered E ro st2 (resp n) (dst (S n)) He Hb Hd), Hc, Hu, Ht.
  simpl. auto.
Qed.

Lemma Do_eventual_success_witness :
  let opts := [WithCondition Example.is_found; WithTimeout (500 * Millisecond)] in
  let f := Do (Example.cluster Example.indexing false) 5 Example.search (Some [])
              opts 0%nat in
  outcome f = Return (Some (Example.reply 200 "found")) None /\
  attempts (final f) = 3%nat /\
  out (final f) = Some (bytes_of "found").
Proof.
  intros opts.
  apply (Do_eventual_success (Example.cluster Example.indexing false)
           Example.search opts Example.is_found 2
           Example.indexing_resp Example.indexing_dst (fun i => i) 5).
  - reflexivity.
  - reflexivity.
  - reflexivity.
  - intros i Hi. assert (i = 0 \/ i = 1)%nat as [-> | ->] by lia;
      (split; [repeat split|exists Example.is_found; split; reflexivity]).
  - repeat split.
  - reflexivity.
  - right. reflexivity.
  - lia.
Defined.

(** C2. No-condition short-circuit. When the options carry no condition,
    [Do] makes exactly one attempt: its outcome is the verdict on that
    single attempt ([single_attempt]: the transport error, the [Error]
    for an error status, the read or decode error, or else the
    response), whatever the response contains, whatever timeout and
    interval are set, and allowing it more passes changes nothing. *)
Theorem Do_without_condition {U D : Type} (E : Env D) (r : Request)
  (o : option D) (opts : list (RequestOption U)) (u : U) (fuel : nat) :
  cond (applyOptions opts) = None ->
  (0 < fuel)%nat ->
  let f := Do E fuel r o opts u in
  attempts (final f) = 1%nat /\
  outcome f = single_attempt E r o /\
  f = Do E 1 r o opts u.
Proof.
  intros Hc Hfuel f. subst f. unfold Do.
  destruct fuel as [|fuel]; [lia|].
  set (ro := applyOptions opts) in *.
  assert (Hit : exists g,
    iteration E ro (timerOf ro) (start ro r o u) = inr g /\
    attempts (final g) = 1%nat /\ outcome g = single_attempt E r o).
  { unfold iteration, wait, start, transportOf, single_attempt, Request_Do.
    rewrite Hc. cbn [tickerC req transport wire req_Body Perform].
    destruct r as [[rd|]]; cbn [req_Body].
    - unfold ReadAll at 1. destruct (rerr rd) as [e|].
      + eexists; split; [reflexivity|]. split; reflexivity.
      + unfold deliver. cbn [sent List.length].
        destruct (answer (server E 0 (Some (rest rd)))) as [resp|e].
        * unfold settle, set_attempt. cbn [out].
          destruct (IsError resp); [eexists; split; [reflexivity|split; reflexivity]|].
          unfold ReadAll. destruct (rerr (resp_Body resp));
            [eexists; split; [reflexivity|split; reflexivity]|].
          destruct (decode E (rest (resp_Body resp)) o) as [o' [e|]];
            [eexists; split; [reflexivity|split; reflexivity]|].
          rewrite Hc. eexists; split; [reflexivity|split; reflexivity].
        * eexists; split; [reflexivity|split; reflexivity].
    - unfold deliver. cbn [sent List.length].
      destruct (answer (server E 0 None)) as [resp|e].
      + unfold settle, set_attempt. cbn [out].
        destruct (IsError resp); [eexists; split; [reflexivity|split; reflexivity]|].
        unfold ReadAll. destruct (rerr (resp_Body resp));
          [eexists; split; [reflexivity|split; reflexivity]|].
        destruct (decode E (rest (resp_Body resp)) o) as [o' [e|]];
          [eexists; split; [reflexivity|split; reflexivity]|].
        rewrite Hc. eexists; split; [reflexivity|split; reflexivity].
      + eexists; split; [reflexivity|split; reflexivity]. }
  destruct Hit as (g & Hg & Ha & Ho).
  simpl. rewrite Hg. auto.
Qed.

Lemma Do_without_condition_witness :
  let E := Example.cluster Example.indexing false in
  let f := Do E 7 Example.search (Some []) [WithTimeout 1] tt in
  attempts (final f) = 1%nat /\
  outcome f = Return (Some (Example.reply 202 "pending")) None /\
  f = Do E 1 Example.search (Some []) [WithTimeout 1] tt.
Proof.
  apply (Do_without_condition (Example.cluster Example.indexing false)
           Example.search (Some []) [WithTimeout 1] tt 7); [reflexivity|lia].
Defined.

(** C3. Terminal errors. Whatever attempt it is (the [n] before it
    having succeeded with the condition false, under a positive interval
    and a timeout that leaves room for them): if the round trip of that
    attempt fails, [Do] returns a nil response and that very error; if it
    is answered with an error status, [Do] returns a nil response and an
    [Error] with the status code of the response and its rendering as
    message. When the body of that response is read to its end that
    message is the status line followed, for a body that is not empty, by
    a space and the text of the body, byte for byte; so the text of the
    body is what the message ends with. In both cases that attempt is the
    last one, however many passes are allowed. *)
Theorem Do_terminal_errors {U D : Type} (E : Env D) (r : Request)
  (opts : list (RequestOption U)) (n : nat)
  (resp : nat -> Response) (dst : nat -> option D) (us : nat -> U) (fuel : nat) :
  let ro := applyOptions opts in
  let B := body_of r in
  readable r ->
  0 < interval ro ->
  unsatisfied E (cond ro) B n resp dst us ->
  allows E ro B n ->
  (n < fuel)%nat ->
  let f := Do E fuel r (dst 0%nat) opts (us 0%nat) in
  (forall err, answer (server E n B) = inr err ->
     outcome f = Return None (Some err) /\
     attempts (final f) = S n /\ List.length (sent (wire (final f))) = S n) /\
  (forall bad, answer (server E n B) = inl bad -> IsError bad = true ->
     outcome f =
       Return None (Some (espoll_Error
         {| StatusCode := resp_StatusCode bad;
            Message := Response_String E bad |})) /\
     attempts (final f) = S n /\ List.length (sent (wire (final f))) = S n /\
     (rerr (resp_Body bad) = None ->
      let text := string_of_list_byte (rest (resp_Body bad)) in
      Response_String E bad =
        (status_line (StatusText E) (resp_StatusCode bad) ++
         match rest (resp_Body bad) with [] => "" | _ => " " ++ text end)%string /\
      exists line, Response_String E bad = (line ++ text)%string)).
Proof.
  intros ro B Hr HI Hun Hal Hfuel f.
  destruct (attempt_reached E ro r dst us n resp (fuel - S n) Hr HI Hun Hal)
    as (st2 & Hl & Hat & Hs & _).
  subst f. unfold Do. fold ro.
  replace fuel with (n + S (fuel - S n))%nat by lia.
  rewrite Hl. fold B. split.
  - intros err Ha. rewrite Ha. simpl. rewrite Hs, repeat_length. auto.
  - intros bad Ha He. rewrite Ha. unfold settle. rewrite He. simpl.
    rewrite Hs, repeat_length. split; [reflexivity|]. split; [exact Hat|].
    split; [reflexivity|]. intros Hrd.
    set (text := string_of_list_byte (rest (resp_Body bad))).
    assert (Hm : Response_String E bad =
      (status_line (StatusText E) (resp_StatusCode bad) ++
       match rest (resp_Body bad) with [] => "" | _ => " " ++ text end)%string).
    { unfold Response_String, esapi_String, ReadAll. rewrite Hrd.
      destruct (rest (resp_Body bad)); [|reflexivity].
      clear. induction (status_line (StatusText E) (resp_StatusCode bad));
        [reflexivity|]. cbn [String.append]. f_equal. exact IHs. }
    split; [exact Hm|]. rewrite Hm. subst text.
    destruct (rest (resp_Body bad)).
    + exists (status_line (StatusText E) (resp_StatusCode bad)). reflexivity.
    + exists (status_line (StatusText E) (resp_StatusCode bad) ++ " ")%string.
      clear. induction (status_line (StatusText E) (resp_StatusCode bad));
        [reflexivity|]. cbn [String.append]. f_equal. exact IHs.
Qed.

Lemma Do_terminal_errors_witness :
  let opts := [WithCondition Example.is_found; WithTimeout Minute] in
  (let f := Do (Example.cluster Example.refusing false) 9 Example.search
               (Some []) opts 0%nat in
   outcome f = Return None (Some (other_error "connection refused")) /\
   attempts (final f) = 2%nat /\ List.length (sent (wire (final f))) = 2%nat) /\
  (let f := Do (Example.cluster Example.failing false) 9 Example.search
               (Some []) opts 0%nat in
   outcome f =
     Return None (Some (espoll_Error
       {| StatusCode := 503; Message := "[503 Service Unavailable] unavailable" |})) /\
   attempts (final f) = 2%nat /\ List.length (sent (wire (final f))) = 2%nat /\
   exists line, Response_String (Example.cluster Example.failing false)
                  (Example.reply 503 "unavailable") = (line ++ "unavailable")%string).
Proof.
  intros opts.
  assert (Hun : forall trips, trips 0%nat = Example.refusing 0%nat ->
    unsatisfied (Example.cluster trips false) (cond (applyOptions opts))
      (body_of Example.search) 1
      Example.indexing_resp Example.indexing_dst (fun i => i)).
  { intros trips H0 i Hi. assert (i = 0)%nat as -> by lia.
    split; [|exists Example.is_found; split; reflexivity].
    unfold succeeds. simpl. rewrite H0. repeat split. }
  split.
  - apply (proj1 (Do_terminal_errors (Example.cluster Example.refusing false)
             Example.search opts 1
             Example.indexing_resp Example.indexing_dst (fun i => i) 9
             eq_refl eq_refl (Hun Example.refusing eq_refl) (or_intror eq_refl)
             ltac:(lia))
             (other_error "connection refused") eq_refl).
  - destruct (proj2 (Do_terminal_errors (Example.cluster Example.failing false)
             Example.search opts 1
             Example.indexing_resp Example.indexing_dst (fun i => i) 9
             eq_refl eq_refl (Hun Example.failing eq_refl) (or_intror eq_refl)
             ltac:(lia))
             (Example.reply 503 "unavailable") eq_refl eq_refl)
      as (Ho & Ha & Hs & Hm).
    split; [exact Ho|]. split; [exact Ha|]. split; [exact Hs|].
    exact (proj2 (Hm eq_refl)).
Defined.

(** C4, as amended. When no collaborator produces the deadline error
    itself (the reader of the request body, the round trips, the readers
    of the response bodies, the decoder), [Do] returns the deadline error
    only with a condition configured and a positive timeout, only after
    at least one attempt and only once the timeout has elapsed. The first
    pass does not wait at all. At the wait of a later pass, with the
    timer due at [d]: if the timer can be received strictly before the
    next tick can (in particular when the deadline has fired and no tick
    is waiting), the call ends there with the deadline error at that
    instant and no further attempt is started, whatever the select would
    choose; on a tie the same holds when the select chooses the timer.
    Conversely a pass goes on to a further attempt only if its tick was
    received before the deadline, or if tick and timer could be received
    at the same instant and the select chose the tick. And an attempt is
    never cut short: if the first attempt satisfies the condition the
    call succeeds, however short the timeout and however long the round
    trip. *)
Theorem Do_deadline {U D : Type} (E : Env D) (r : Request) (o : option D)
  (opts : list (RequestOption U)) (u : U) :
  let ro := applyOptions opts in
  (no_foreign_deadline E r ->
   forall fuel,
     let f := Do E fuel r o opts u in
     outcome f = Return None (Some context_DeadlineExceeded) ->
     (exists c, cond ro = Some c) /\ 0 < timeout ro /\
     (1 <= attempts (final f))%nat /\
     timeout ro <= now (wire (final f))) /\
  wait E (timerOf ro) (start ro r o u) = inl (start ro r o u) /\
  (forall (st : LoopState U D) tk d,
     tickerC st = Some tk ->
     timerOf ro = Some d ->
     let timer_at := Z.max (now (wire st)) d in
     let tick_at := Z.max (now (wire st)) (next tk) in
     (timer_at < tick_at \/
      (timer_at = tick_at /\ race E (attempts st) = true) ->
      exists f,
        iteration E ro (timerOf ro) st = inr f /\
        outcome f = Return None (Some context_DeadlineExceeded) /\
        attempts (final f) = attempts st /\
        sent (wire (final f)) = sent (wire st) /\
        now (wire (final f)) = timer_at) /\
     (forall st1,
        wait E (timerOf ro) st = inl st1 ->
        now (wire st1) = tick_at /\
        (tick_at < d \/
         (tick_at = timer_at /\ race E (attempts st) = false)))) /\
  (forall c resp d' u' fuel,
     cond ro = Some c -> readable r ->
     succeeds E (body_of r) 0 resp o d' ->
     c (seen resp) u = (true, u') ->
     (0 < fuel)%nat ->
     outcome (Do E fuel r o opts u) = Return (Some (seen resp)) None).
Proof.
  intros ro. split; [|split; [|split]].
  - intros (Hreq & Hsrv & Hbod & Hdec) fuel f Hout.
    destruct (loop_deadline E ro Hsrv Hbod Hdec (timerOf ro) fuel (start ro r o u))
      as (d & Hd & Hnow & Hat).
    + exact Hreq.
    + simpl. congruence.
    + exact Hout.
    + destruct (timerOf_armed ro d Hd) as (Hc & Ht & ->). auto.
  - reflexivity.
  - intros st tk d Htk Hd timer_at tick_at. split.
    + intros Hfirst. unfold iteration, wait. rewrite Htk, Hd.
      rewrite (select_deadline_first d tk _ _ Hfirst).
      eexists; split; [reflexivity|]. simpl. auto.
    + intros st1. unfold wait. rewrite Htk, Hd.
      destruct (select _ _ _ _) as [[[] t] tk'] eqn:Hs; [discriminate|].
      intros H; inversion H; subst st1; clear H.
      destruct (select_tick_taken _ _ _ _ _ _ Hs) as (Ht & [Hlt|[Hm Hc]]).
      * split; [exact Ht|]. left. fold tick_at in Ht. rewrite <- Ht. exact Hlt.
      * split; [exact Ht|]. right. split; [exact Hm|exact Hc].
  - intros c resp d' u' fuel Hc Hr (Ha & He & Hb & Hd) Ht Hfuel.
    destruct fuel as [|fuel]; [lia|].
    unfold Do. fold ro. simpl.
    destruct (first_attempt E ro r o u Hr) as (st2 & Hit & _ & _ & Ho & Hu & _).
    rewrite Hit, Ha. rewrite <- Ho in Hd.
    rewrite (settle_answered E ro st2 resp d' He Hb Hd), Hc, Hu, Ht. reflexivity.
Qed.

(** The first attempt ends 10ms into the call and starts a ticker of
    100ms; the timer of 50ms is due first, so the second pass ends the
    call at 50ms without a second attempt, even when ties go to the
    ticker. *)
Lemma Do_deadline_witness :
  let opts := [WithCondition Example.is_found; WithTimeout (50 * Millisecond)] in
  let f := Do (Example.cluster Example.never true) 9 Example.search (Some [])
              opts 0%nat in
  ((exists c, cond (applyOptions opts) = Some c) /\
   0 < timeout (applyOptions opts) /\
   (1 <= attempts (final f))%nat /\
   timeout (applyOptions opts) <= now (wire (final f))) /\
  (let E := Example.cluster Example.never false in
   let st := final (Do E 1 Example.search (Some []) opts 0%nat) in
   now (wire st) = 10 * Millisecond /\
   exists g,
     iteration E (applyOptions opts) (timerOf (applyOptions opts)) st = inr g /\
     outcome g = Return None (Some context_DeadlineExceeded) /\
     attempts (final g) = 1%nat /\
     sent (wire (final g)) = sent (wire st) /\
     now (wire (final g)) = 50 * Millisecond).
Proof.
  intros opts. split.
  - apply (proj1 (Do_deadline (Example.cluster Example.never true) Example.search
                    (Some []) opts 0%nat)).
    + split; [|split; [|split]].
      * intros rd H; inversion H; subst; discriminate.
      * intros n b; discriminate.
      * intros n b resp H; inversion H; subst; discriminate.
      * intros b d; discriminate.
    + reflexivity.
  - intros E st. split; [reflexivity|].
    exact (proj1 (proj1 (proj2 (proj2 (Do_deadline E Example.search (Some [])
                                          opts 0%nat)))
                    st {| period := 100 * Millisecond; next := 110 * Millisecond |}
                    (50 * Millisecond) eq_refl eq_refl)
             (or_introl eq_refl)).
Defined.

(** C4, as stated, fails twice. Without any condition the deadline error
    of the transport comes back from [Do] as it is. And when a round trip
    outlasts the deadline while a tick is waiting, both cases of the
    select can proceed: here, 120ms into a call whose timeout was 50ms,
    with the tick due since 30ms, it takes the tick, and a third attempt
    starts after the deadline has fired, and succeeds. *)
Lemma Do_deadline_counterexample :
  (cond (@applyOptions unit []) = None /\
   outcome (Do (Example.cluster Example.expiring false) 3 Example.search
              (Some []) [] tt)
     = Return None (Some context_DeadlineExceeded)) /\
  (let opts := [WithCondition Example.is_found; WithTimeout (50 * Millisecond);
                WithInterval (10 * Millisecond)] in
   let E := Example.cluster Example.slow_second false in
   timeout (applyOptions opts) = 50 * Millisecond /\
   attempts (final (Do E 2 Example.search (Some []) opts 0%nat)) = 2%nat /\
   now (wire (final (Do E 2 Example.search (Some []) opts 0%nat)))
     = 120 * Millisecond /\
   attempts (final (Do E 3 Example.search (Some []) opts 0%nat)) = 3%nat /\
   outcome (Do E 3 Example.search (Some []) opts 0%nat)
     = Return (Some (Example.reply 200 "found")) None).
Proof. repeat split. Qed.

(** C5. Body replay. With a condition configured and a request whose
    body is read without error, every request that reaches the cluster
    carries the same bytes, those of the body of the request, on every
    attempt a run makes, however it ends. *)
Theorem Do_replays_body {U D : Type} (E : Env D) (r : Request) (o : option D)
  (opts : list (RequestOption U)) (u : U) (fuel : nat) :
  cond (applyOptions opts) <> None ->
  readable r ->
  let f := Do E fuel r o opts u in
  sent (wire (final f)) = repeat (body_of r) (attempts (final f)).
Proof.
  intros Hc Hr f. subst f. unfold Do.
  apply loop_repeats; [exact Hr|].
  unfold repeating, start, transportOf. simpl.
  destruct (cond (applyOptions opts)); [auto|congruence].
Qed.

Lemma Do_replays_body_witness :
  let opts := [WithCondition Example.is_found] in
  let f := Do (Example.cluster Example.indexing false) 5 Example.search (Some [])
              opts 0%nat in
  sent (wire (final f)) = repeat (Some (bytes_of "{query}")) 3.
Proof.
  intros opts.
  apply (Do_replays_body (Example.cluster Example.indexing false) Example.search
           (Some []) opts 0%nat 5).
  - discriminate.
  - reflexivity.
Defined.

(** Without the repeater the reader of the request is at its end after
    the first round trip: a second [req.Do] on the plain client sends an
    empty body. *)
Example plain_client_sends_empty_body :
  let E := Example.cluster Example.indexing false in
  let '(_, r1, tr1, w1) :=
    Request_Do E Example.search esClient {| now := 0; sent := [] |} in
  let '(_, _, _, w2) := Request_Do E r1 tr1 w1 in
  sent w2 = [Some (bytes_of "{query}"); Some []].
Proof. reflexivity. Qed.

(** C6. [AllCondition] of no condition is true on every response.
    [AllCondition conds] is true on a response exactly when every
    condition of [conds], run in the given order, is true on it. The
    first condition that is false ends the evaluation: the result is
    false and the state is the one that condition left, whatever
    conditions follow it. For conditions without side effects the result
    is the conjunction of their values, in particular for two. *)
Theorem AllCondition_spec {U : Type} :
  (forall resp (u : U), AllCondition [] resp u = (true, u)) /\
  (forall (conds : list (ConditionFunc U)) resp u,
     fst (AllCondition conds resp u) = true <->
     exists u', all_true resp conds u u') /\
  (forall (pre post : list (ConditionFunc U)) c resp u u1 u2,
     all_true resp pre u u1 ->
     c resp u1 = (false, u2) ->
     AllCondition (pre ++ c :: post) resp u = (false, u2)) /\
  (forall (ps : list (Response -> bool)) resp (u : U),
     AllCondition (map pure_cond ps) resp u = (forallb (fun p => p resp) ps, u)) /\
  (forall (f g : Response -> bool) resp (u : U),
     fst (AllCondition [pure_cond f; pure_cond g] resp u) = true <->
     f resp = true /\ g resp = true).
Proof.
  split; [reflexivity|]. split; [|split; [|split]].
  - intros conds resp u. split.
    + intros H. destruct (AllCondition conds resp u) as [b u'] eqn:Ha.
      simpl in H; subst b. exists u'. apply AllCondition_true_inv; exact Ha.
    + intros (u' & H). rewrite (AllCondition_all_true _ _ _ _ H). reflexivity.
  - intros pre post c resp u u1 u2 Hpre Hc.
    rewrite (AllCondition_app pre (c :: post) resp u u1 Hpre). simpl.
    rewrite Hc. reflexivity.
  - intros ps resp u. apply AllCondition_pure.
  - intros f g resp u.
    change [pure_cond f; pure_cond g] with (map (@pure_cond U) [f; g]).
    rewrite (AllCondition_pure [f; g] resp u). simpl.
    rewrite andb_true_r. apply andb_true_iff.
Qed.

(** The stub after a false one leaves no trace in the log. *)
Lemma AllCondition_spec_witness :
  AllCondition [Example.stub "f" true; Example.stub "g" false; Example.stub "h" true]
    (Example.reply 200 "found") [] = (false, ["f"; "g"]%string).
Proof.
  apply (proj1 (proj2 (proj2 (@AllCondition_spec (list string))))
           [Example.stub "f" true] [Example.stub "h" true] (Example.stub "g" false)
           (Example.reply 200 "found") [] ["f"%string] ["f"; "g"]%string).
  - econstructor; [reflexivity|constructor].
  - reflexivity.
Defined.



(** C8, as amended. What the caller observes. A call that returns
    returns either a response and a nil error or a nil response and one
    error of one of the terminal kinds (deadline, reading the request
    body, transport, error status, reading or decoding the response
    body); never both, never neither. In the first case the call made
    [n] attempts that ended in no return and one more, answered with the
    response that is returned, its body reinstated as a fresh stream; and
    the destination holds what [json.Unmarshal] made of the body of that
    response, without error, written over the destination as those [n]
    attempts left it (nothing is decoded when no destination was given).
    Every attempt that ended in no return did the same to the
    destination with its own body, from the destination the caller
    supplied on. The calls that do not return are those that panic,
    which takes a non-positive interval with a condition, and those that
    are still polling, which takes a condition. *)
Theorem Do_outcomes {U D : Type} (E : Env D) (r : Request) (o : option D)
  (opts : list (RequestOption U)) (u : U) (fuel : nat) :
  let ro := applyOptions opts in
  let f := Do E fuel r o opts u in
  match outcome f with
  | Return (Some resp) None =>
      exists n resp0,
        (n < fuel)%nat /\
        outcome (Do E n r o opts u) = Polling /\
        attempts (final f) = S n /\
        resp = seen resp0 /\
        one_more E (final (Do E n r o opts u)) (final f) resp0
  | Return None (Some e) => terminal_error E r e
  | Return (Some _) (Some _) | Return None None => False
  | Panic _ => interval ro <= 0 /\ cond ro <> None
  | Polling =>
      attempts (final f) = fuel /\ (fuel = 0%nat \/ cond ro <> None) /\
      match fuel with
      | O => out (final f) = o
      | S n =>
          outcome (Do E n r o opts u) = Polling /\
          exists resp0, one_more E (final (Do E n r o opts u)) (final f) resp0
      end
  end.
Proof.
  intros ro f. subst f. unfold Do. fold ro.
  pose proof (loop_classified E ro (timerOf ro) o fuel (start ro r o u)
                (conj (fun H => H) (fun H => H))) as Hcl.
  pose proof (loop_polling E ro (timerOf ro) fuel (start ro r o u)) as Hpo.
  pose proof (loop_last E ro (timerOf ro) fuel (start ro r o u)) as Hlast.
  unfold classified in Hcl.
  destruct (outcome (loop E ro (timerOf ro) fuel (start ro r o u)))
    as [[resp|] [e|] | msg | ] eqn:Hout; auto.
  - destruct Hlast as (n & Hn & Hp & Hit); [discriminate|].
    pose proof (iteration_written E ro (timerOf ro)
                  (final (loop E ro (timerOf ro) n (start ro r o u)))) as Hw.
    rewrite Hit, Hout in Hw. destruct Hw as (resp0 & -> & Hone).
    exists n, resp0. split; [exact Hn|]. split; [exact Hp|].
    split; [|split; [reflexivity|exact Hone]].
    destruct Hone as (b & Ha & _).
    destruct (loop_polling E ro (timerOf ro) n (start ro r o u) Hp) as (Han & _).
    rewrite Ha, Han. reflexivity.
  - apply (loop_errors E ro r (timerOf ro) fuel (start ro r o u) e); [|exact Hout].
    intros rd' Hrd'. exists rd'. split; [exact Hrd'|reflexivity].
  - destruct (Hpo eq_refl) as (Ha & Hc). split; [exact Ha|]. split; [exact Hc|].
    destruct fuel as [|n]; [reflexivity|].
    rewrite loop_snoc in Hout. cbv zeta in Hout.
    pose proof (iteration_written E ro (timerOf ro)
                  (final (loop E ro (timerOf ro) n (start ro r o u)))) as Hw.
    destruct (outcome (loop E ro (timerOf ro) n (start ro r o u)))
      as [resp e | msg | ] eqn:Hn.
    + rewrite Hn in Hout. discriminate.
    + rewrite Hn in Hout. discriminate.
    + split; [reflexivity|]. rewrite loop_snoc. cbv zeta. rewrite Hn.
      destruct (iteration E ro (timerOf ro)
                  (final (loop E ro (timerOf ro) n (start ro r o u)))) as [st'|f].
      * exact Hw.
      * rewrite Hout in Hw. contradiction.
Qed.

(** The document is there on the third request: two attempts that end
    in no return, then the one whose response is returned, decoded over
    what the second left. *)
Lemma Do_outcomes_witness :
  let E := Example.cluster Example.indexing false in
  let opts := [WithCondition Example.is_found] in
  let f := Do E 5 Example.search (Some []) opts 0%nat in
  outcome f = Return (Some (Example.reply 200 "found")) None /\
  out (final (Do E 2 Example.search (Some []) opts 0%nat))
    = Some (bytes_of "pending") /\
  out (final f) = Some (bytes_of "found") /\
  exists n resp0,
    (n < 5)%nat /\
    outcome (Do E n Example.search (Some []) opts 0%nat) = Polling /\
    attempts (final f) = S n /\
    Example.reply 200 "found" = seen resp0 /\
    one_more E (final (Do E n Example.search (Some []) opts 0%nat)) (final f) resp0.
Proof.
  intros E opts f. split; [reflexivity|]. split; [reflexivity|].
  split; [reflexivity|].
  exact (Do_outcomes E Example.search (Some []) opts 0%nat 5).
Defined.

(** C8, as stated, fails twice. With a condition and an interval of 0
    the call ends after its first attempt in the panic of
    [time.NewTicker]: the caller gets neither a response nor an error,
    and the destination has been written. And the destination is
    decoded into on every attempt, not only on the last: with a decoder
    that keeps what the destination holds, as [json.Unmarshal] does for
    the fields and keys that a document does not mention, the call
    returns the response whose body is [found] while the destination
    holds what the two earlier responses left as well; decoding that
    body alone into the destination the caller supplied gives
    [found]. *)
Lemma Do_outcomes_counterexample :
  (let E := Example.cluster Example.indexing false in
   let f := Do E 3 Example.search (Some [])
               [WithCondition Example.is_found; WithInterval 0] 0%nat in
   outcome f = Panic "non-positive interval for NewTicker" /\
   attempts (final f) = 1%nat /\
   out (final f) = Some (bytes_of "pending")) /\
  (let E := with_decoder (Example.cluster Example.indexing false)
              Example.merge_body in
   let f := Do E 5 Example.search (Some []) [WithCondition Example.is_found]
               0%nat in
   outcome f = Return (Some (Example.reply 200 "found")) None /\
   out (final f) = Some (bytes_of "pendingpendingfound") /\
   Unmarshal E (bytes_of "found") [] = (bytes_of "found", None)).
Proof. repeat split. Qed.

(** C9. Every builder that serializes at all (it fails only on a value
    that [json.Marshal] rejects) serializes to an object with the single
    key naming its kind. The [bool] object carries
    [minimum_should_match] and [boost] exactly when they are not zero;
    a [term] query with a zero boost is just the value under its field;
    a [terms] query with a zero boost is just the values under its
    field; [exists] and [match_phrase] have no optional field. The text
    of [TermQuery{Field:status, Value:ok, Boost:0}] is the one of the
    specification, without a boost key. *)
Theorem MarshalJSON_spec :
  (forall (b : Query.Builder) doc,
     Query.MarshalJSON b = Some doc ->
     exists j, doc = JSON.JObject [(Query.kind b, j)]) /\
  (forall q : Query.BoolQuery,
     Query.BoolQuery_MarshalJSON q =
     Query.encodeQueryJSON "bool"
       (JSON.struct_any
          ([ JSON.field_slice "filter" true (Query.Filter q);
             JSON.field_slice "must" true (Query.Must q);
             JSON.field_slice "must_not" true (Query.MustNot q);
             JSON.field_slice "should" true (Query.Should q) ]
           ++ (if Query.MinimumShouldMatch q =? 0 then []
               else [("minimum_should_match"%string, false,
                      JSON.int_any (Query.MinimumShouldMatch q))])
           ++ (if JSON.float64_is_zero (Query.BoolQuery_Boost q) then []
               else [("boost"%string, false,
                      JSON.float64_any (Query.BoolQuery_Boost q))])))) /\
  (forall field value boost jv,
     JSON.float64_is_zero boost = true ->
     JSON.Marshal value = Some jv ->
     Query.TermQuery_MarshalJSON
       {| Query.TermQuery_Field := field; Query.TermQuery_Value := value;
          Query.TermQuery_Boost := boost |}
     = Some (JSON.JObject
               [("term"%string,
                 JSON.JObject [(field, JSON.JObject [("value"%string, jv)])])])) /\
  (forall field values boost jvs,
     JSON.float64_is_zero boost = true ->
     JSON.Marshal (JSON.of_slice values) = Some jvs ->
     Query.TermsQuery_MarshalJSON
       {| Query.TermsQuery_Field := field; Query.Values := values;
          Query.TermsQuery_Boost := boost |}
     = Some (JSON.JObject [("terms"%string, JSON.JObject [(field, jvs)])])) /\
  (forall field,
     Query.ExistsQuery_MarshalJSON {| Query.ExistsQuery_Field := field |}
     = Some (JSON.JObject
               [("exists"%string,
                 JSON.JObject [("field"%string, JSON.JString field)])])) /\
  (forall field value jv,
     JSON.Marshal value = Some jv ->
     Query.MatchPhraseQuery_MarshalJSON
       {| Query.MatchPhraseQuery_Field := field;
          Query.MatchPhraseQuery_Value := value |}
     = Some (JSON.JObject [("match_phrase"%string, JSON.JObject [(field, jv)])])) /\
  (forall format_float64,
     option_map (JSON.encode format_float64)
       (Query.TermQuery_MarshalJSON
          {| Query.TermQuery_Field := "status";
             Query.TermQuery_Value := JSON.string_any "ok";
             Query.TermQuery_Boost := 0 |})
     = Some ("{" ++ JSON.dquote ++ "term" ++ JSON.dquote ++ ":{"
                 ++ JSON.dquote ++ "status" ++ JSON.dquote ++ ":{"
                 ++ JSON.dquote ++ "value" ++ JSON.dquote ++ ":"
                 ++ JSON.dquote ++ "ok" ++ JSON.dquote ++ "}}}")%string).
Proof.
  split; [|split; [|split; [|split; [|split; [|split]]]]].
  - intros b doc H.
    destruct b as [q|q|q|q|q]; unfold Query.MarshalJSON, Query.kind in H |- *;
      [unfold Query.BoolQuery_MarshalJSON in H
      |unfold Query.ExistsQuery_MarshalJSON in H
      |unfold Query.TermQuery_MarshalJSON in H
      |unfold Query.TermsQuery_MarshalJSON in H
      |unfold Query.MatchPhraseQuery_MarshalJSON in H];
      exact (encodeQueryJSON_single_key _ _ _ H).
  - intros q.
    unfold Query.BoolQuery_MarshalJSON, Query.boolQuery,
      JSON.field_int, JSON.field_float64.
    cbn [andb].
    destruct (Query.MinimumShouldMatch q =? 0),
             (JSON.float64_is_zero (Query.BoolQuery_Boost q)); reflexivity.
  - intros field value boost jv Hz Hv.
    unfold Query.TermQuery_MarshalJSON, Query.termQuery, Query.encodeQueryJSON,
      JSON.field_float64, JSON.field_any.
    cbn [andb Query.TermQuery_Field Query.TermQuery_Value Query.TermQuery_Boost].
    rewrite Hz. cbn [JSON.Marshal]. rewrite Hv. reflexivity.
  - intros field values boost jvs Hz Hv.
    unfold Query.TermsQuery_MarshalJSON, Query.encodeQueryJSON.
    cbn [Query.TermsQuery_Field Query.Values Query.TermsQuery_Boost]. rewrite Hz.
    cbn [negb JSON.Marshal]. rewrite Hv. reflexivity.
  - intros field. reflexivity.
  - intros field value jv Hv.
    unfold Query.MatchPhraseQuery_MarshalJSON, Query.encodeQueryJSON.
    cbn [Query.MatchPhraseQuery_Field Query.MatchPhraseQuery_Value JSON.Marshal].
    rewrite Hv. reflexivity.
  - intros fmt. vm_compute. reflexivity.
Qed.

(** A [terms] query on a field that is itself called boost, with a
    negative zero as boost: the only key is the field. *)
Lemma MarshalJSON_spec_witness :
  Query.TermsQuery_MarshalJSON
    {| Query.TermsQuery_Field := "boost";
       Query.Values := Some [JSON.string_any "a"; JSON.int_any 7];
       Query.TermsQuery_Boost := 2 ^ 63 |}
  = Some (JSON.JObject
            [("terms"%string,
              JSON.JObject [("boost"%string,
                             JSON.JArray [JSON.JString "a"; JSON.JInt 7])])]).
Proof.
  apply (proj1 (proj2 (proj2 (proj2 MarshalJSON_spec)))
           "boost"%string (Some [JSON.string_any "a"; JSON.int_any 7]) (2 ^ 63)
           (JSON.JArray [JSON.JString "a"; JSON.JInt 7])).
  - reflexivity.
  - reflexivity.
Defined.

(** C10. The interval is not checked. With a condition configured, a
    first attempt that succeeds with the condition false and an
    effective interval that is not positive, [Do] panics in
    [time.NewTicker] after that one attempt. With a positive interval no
    run of [Do] panics. *)
Theorem Do_ticker_panic {U D : Type} (E : Env D) (r : Request) (o : option D)
  (opts : list (RequestOption U)) (u : U) :
  let ro := applyOptions opts in
  (forall c resp d' u' fuel,
     cond ro = Some c ->
     interval ro <= 0 ->
     readable r ->
     succeeds E (body_of r) 0 resp o d' ->
     c (seen resp) u = (false, u') ->
     (0 < fuel)%nat ->
     let f := Do E fuel r o opts u in
     outcome f = Panic "non-positive interval for NewTicker" /\
     attempts (final f) = 1%nat) /\
  (0 < interval ro ->
   forall fuel msg, outcome (Do E fuel r o opts u) <> Panic msg).
Proof.
  intros ro. split.
  - intros c resp d' u' fuel Hc HI Hr (Ha & He & Hb & Hd) Hf Hfuel f.
    destruct fuel as [|fuel]; [lia|].
    subst f. unfold Do. fold ro. simpl.
    destruct (first_attempt E ro r o u Hr) as (st2 & Hit & Hat & _ & Ho & Hu & Htk).
    rewrite Hit, Ha. rewrite <- Ho in Hd.
    rewrite (settle_answered E ro st2 resp d' He Hb Hd), Hc, Hu, Hf, Htk.
    unfold NewTicker. destruct (Z.leb_spec (interval ro) 0) as [_|Hgt]; [|lia].
    simpl. auto.
  - intros HI fuel msg Hout.
    pose proof (loop_classified E ro (timerOf ro) o fuel (start ro r o u)
                  (conj (fun H => H) (fun H => H))) as H.
    unfold classified in H. unfold Do in Hout. fold ro in Hout.
    rewrite Hout in H. lia.
Qed.

Lemma Do_ticker_panic_witness :
  let opts := [WithCondition Example.is_found; WithInterval 0] in
  let f := Do (Example.cluster Example.indexing false) 5 Example.search (Some [])
              opts 0%nat in
  outcome f = Panic "non-positive interval for NewTicker" /\
  attempts (final f) = 1%nat.
Proof.
  intros opts.
  apply (proj1 (Do_ticker_panic (Example.cluster Example.indexing false)
                  Example.search (Some []) opts 0%nat)
           Example.is_found (Example.reply 202 "pending")
           (Some (bytes_of "pending")) 1%nat 5%nat).
  - reflexivity.
  - simpl. lia.
  - reflexivity.
  - repeat split.
  - reflexivity.
  - lia.
Defined.

(* ================================================================== *)
(** * Further lemmas: pace, deadline, polling without end *)
(* ================================================================== *)

Lemma select_tick tC tk now coin t tk' :
  select tC tk now coin = (TickFired, t, tk') ->
  t = Z.max now (next tk) /\ tk' = after_tick tk t.
Proof.
  unfold select. destruct tC as [d|].
  - destruct (Z.max now d <? Z.max now (next tk)); [discriminate|].
    destruct (Z.max now (next tk) <? Z.max now d).
    + intros H; inversion H; subst; auto.
    + destruct coin; [discriminate|]. intros H; inversion H; subst; auto.
  - intros H; inversion H; subst; auto.
Qed.


Lemma after_tick_advances tk t :
  0 < period tk -> next tk <= t -> next tk + period tk <= next (after_tick tk t).
Proof.
  intros Hp Ht. unfold after_tick; simpl.
  assert (0 <= (t - next tk) / period tk) by (apply Z.div_pos; lia).
  nia.
Qed.

Section Runs2.
Context {U D : Type}.
Variable E : Env D.
Variable ro : requestOptions U.

Lemma Perform_wire tr : forall body w a body' tr' w',
  Perform E tr body w = (a, body', tr', w') ->
  now w <= now w' /\
  (List.length (sent w) <= List.length (sent w') <= S (List.length (sent w)))%nat.
Proof.
  assert (Hd : forall w b, now w <= now (delivered E w b) /\
    (List.length (sent w) <= List.length (sent (delivered E w b))
       <= S (List.length (sent w)))%nat).
  { intros w b. unfold delivered; simpl. rewrite length_app. simpl. lia. }
  induction tr as [|t IH gb]; intros body w a body' tr' w'; simpl.
  - destruct body as [rd|].
    + unfold ReadAll. destruct (rerr rd) as [e|].
      * intros H; inversion H; subst. lia.
      * intros H; inversion H; subst. apply Hd.
    + intros H; inversion H; subst. apply Hd.
  - destruct body as [rd|].
    + destruct gb as [data|].
      * destruct (Perform E t (Some (NewReader data)) w) as [[[a1 b1] t1] w1] eqn:Hp.
        intros H; inversion H; subst. exact (IH _ _ _ _ _ _ Hp).
      * unfold ReadAll. destruct (rerr rd) as [e|].
        -- intros H; inversion H; subst. lia.
        -- destruct (Perform E t (Some (NewReader (rest rd))) w) as [[[a1 b1] t1] w1] eqn:Hp.
           intros H; inversion H; subst. exact (IH _ _ _ _ _ _ Hp).
    + destruct (Perform E t None w) as [[[a1 b1] t1] w1] eqn:Hp.
      intros H; inversion H; subst. exact (IH _ _ _ _ _ _ Hp).
Qed.

Lemma Request_Do_wire rq tr w a rq' tr' w' :
  Request_Do E rq tr w = (a, rq', tr', w') ->
  now w <= now w' /\
  (List.length (sent w) <= List.length (sent w') <= S (List.length (sent w)))%nat.
Proof.
  unfold Request_Do.
  destruct (Perform E tr (req_Body rq) w) as [[[a1 b1] t1] w1] eqn:Hp.
  intros H; inversion H; subst. exact (Perform_wire _ _ _ _ _ _ _ Hp).
Qed.

(** What a wait that lets the pass go on has done. *)
Lemma wait_ticks tC (st st1 : LoopState U D) :
  wait E tC st = inl st1 ->
  (tickerC st = None /\ st1 = st) \/
  (exists tk t,
     tickerC st = Some tk /\
     select tC tk (now (wire st)) (race E (attempts st)) = (TickFired, t, after_tick tk t) /\
     t = Z.max (now (wire st)) (next tk) /\
     st1 = set_clock t (Some (after_tick tk t)) st).
Proof.
  unfold wait. destruct (tickerC st) as [tk|]; [|intros H; inversion H; auto].
  destruct (select _ _ _ _) as [[[] t] tk'] eqn:Hs; [discriminate|].
  intros H; inversion H; subst. right.
  destruct (select_tick _ _ _ _ _ _ Hs) as (-> & ->). exists tk. eexists. eauto.
Qed.

Lemma settle_ticker a (st st' : LoopState U D) :
  settle E ro a st = inl st' ->
  tickerC st' = tickerC st \/
  (tickerC st = None /\ 0 < interval ro /\
   tickerC st' = Some {| period := interval ro; next := now (wire st) + interval ro |}).
Proof.
  unfold settle, decode, ReadAll, NewTicker.
  destruct a as [resp|e]; [|discriminate].
  destruct (IsError resp); [discriminate|].
  destruct (rerr (resp_Body resp)); [discriminate|].
  destruct (out st) as [d|].
  - destruct (Unmarshal E (rest (resp_Body resp)) d) as [d' [e|]]; [discriminate|].
    destruct (cond ro) as [c|]; [|discriminate].
    destruct (c _ _) as [[] u']; [discriminate|].
    cbn [tickerC set_ustate set_out now wire].
    destruct (tickerC st) eqn:Htk.
    + intros H; inversion H; subst; simpl. left. congruence.
    + destruct (Z.leb_spec (interval ro) 0) as [Hle|Hgt]; [discriminate|].
      intros H; inversion H; subst; simpl. right. auto.
  - destruct (cond ro) as [c|]; [|discriminate].
    destruct (c _ _) as [[] u']; [discriminate|].
    cbn [tickerC set_ustate set_out now wire].
    destruct (tickerC st) eqn:Htk.
    + intros H; inversion H; subst; simpl. left. congruence.
    + destruct (Z.leb_spec (interval ro) 0) as [Hle|Hgt]; [discriminate|].
      intros H; inversion H; subst; simpl. right. auto.
Qed.

(** A pass from a paced state: the state in which its request returns is
    one attempt further and not earlier than the tick it waited for. *)
Lemma attempt_paced tC (st st1 : LoopState U D) a rq' tr' w' :
  0 < interval ro -> paced ro st ->
  wait E tC st = inl st1 ->
  Request_Do E (req st1) (transport st1) (wire st1) = (a, rq', tr', w') ->
  let st2 := set_attempt rq' tr' w' st1 in
  0 <= now (wire st2) /\
  Z.of_nat (attempts st) * interval ro <= now (wire st2) /\
  attempts st2 = S (attempts st) /\
  (List.length (sent (wire st2)) <= attempts st2)%nat /\
  (forall tk, tickerC st2 = Some tk ->
     period tk = interval ro /\ Z.of_nat (attempts st2) * interval ro <= next tk) /\
  (tickerC st2 = None -> attempts st = 0%nat).
Proof.
  intros HI (Hnow & Hpace & Hnone & Htick & Hlen) Hw Hdo st2.
  destruct (Request_Do_wire _ _ _ _ _ _ _ Hdo) as (Hmono & Hl1 & Hl2).
  destruct (wait_ticks _ _ _ Hw) as [(Htk & ->) | (tk & t & Htk & _ & Ht & ->)].
  - pose proof (Hnone Htk) as Ha. subst st2.
    unfold set_attempt; cbn [wire attempts tickerC]. rewrite Htk, Ha in *.
    split; [lia|]. split; [simpl; lia|]. split; [reflexivity|].
    split; [lia|]. split; [intros tk0 HH; discriminate|reflexivity].
  - destruct (Htick tk Htk) as (Hp & Hnx). subst st2.
    unfold set_attempt, set_clock in *; cbn [wire attempts tickerC now sent] in *.
    pose proof (after_tick_advances tk t ltac:(lia) ltac:(lia)) as Hadv.
    split; [lia|]. split; [lia|]. split; [reflexivity|].
    split; [lia|]. split; [|discriminate].
    intros tk0 HH; inversion HH; subst tk0. split; [exact Hp|lia].
Qed.

(** The loop keeps its pace: a pass leaves a paced state paced, and a
    call ends no earlier than one interval per attempt after the first,
    having sent no more requests than it made attempts. *)
Lemma iteration_paced tC (st : LoopState U D) :
  0 < interval ro -> paced ro st ->
  match iteration E ro tC st with
  | inl st' => paced ro st'
  | inr f =>
      (Z.of_nat (attempts (final f)) - 1) * interval ro <= now (wire (final f)) /\
      (List.length (sent (wire (final f))) <= attempts (final f))%nat
  end.
Proof.
  intros HI Hp.
  destruct (iteration E ro tC st) as [st'|f] eqn:Hit.
  - destruct (iteration_continues _ _ _ _ _ Hit)
      as (st1 & a & rq' & tr' & w' & Hw & Hdo & Hs).
    destruct (attempt_paced tC st st1 a rq' tr' w' HI Hp Hw Hdo)
      as (H0 & H1 & H2 & H3 & H4 & H5).
    destruct (settle_continues _ _ _ _ _ Hs) as (_ & Hne & Hwire & Hat & _).
    unfold paced. rewrite Hwire, Hat, H2.
    split; [exact H0|]. split; [lia|]. split; [intros; congruence|].
    split; [|rewrite <- H2; exact H3].
    intros tk Htk.
    destruct (settle_ticker _ _ _ Hs) as [Hsame | (Hnone & _ & Hnew)].
    + rewrite Hsame in Htk. rewrite <- H2. apply H4. exact Htk.
    + rewrite Hnew in Htk. inversion Htk; subst tk; cbn [period next].
      rewrite (H5 Hnone). unfold set_attempt in H0; cbn [wire now] in H0.
      split; [reflexivity|lia].
  - destruct (iteration_ends _ _ _ _ _ Hit)
      as [Hw | (st1 & a & rq' & tr' & w' & Hw & Hdo & Hs)].
    + destruct Hp as (Hnow & Hpace & Hnone & Htick & Hlen).
      destruct (wait_expires _ _ _ _ Hw) as (tk & d & t & tk' & Htk & -> & Hsel & -> & Hd).
      destruct (select_timeout_expired _ _ _ _ _ _ _ Hsel eq_refl) as (_ & Hge).
      unfold set_clock; cbn [final wire attempts now sent]. split; lia.
    + destruct (attempt_paced tC st st1 a rq' tr' w' HI Hp Hw Hdo)
        as (H0 & H1 & H2 & H3 & H4 & H5).
      destruct (settle_ends _ _ _ _ _ Hs) as (_ & Hwire & Hat & _).
      rewrite Hwire, Hat. split; [lia|exact H3].
Qed.

Lemma loop_paced tC fuel : forall st : LoopState U D,
  0 < interval ro -> paced ro st ->
  (Z.of_nat (attempts (final (loop E ro tC fuel st))) - 1) * interval ro
    <= now (wire (final (loop E ro tC fuel st))) /\
  (List.length (sent (wire (final (loop E ro tC fuel st))))
     <= attempts (final (loop E ro tC fuel st)))%nat.
Proof.
  induction fuel as [|fuel IH]; intros st HI Hp; simpl.
  - destruct Hp as (H0 & H1 & _ & _ & H4). auto.
  - pose proof (iteration_paced tC st HI Hp) as H.
    destruct (iteration E ro tC st) as [st'|f]; [apply IH; assumption|exact H].
Qed.



Lemma paced_start (r : Request) (o : option D) (u : U) :
  0 < interval ro -> paced ro (start ro r o u).
Proof.
  intros HI. unfold paced, start; cbn [wire now attempts tickerC sent List.length].
  split; [lia|]. split; [lia|]. split; [reflexivity|].
  split; [intros tk H; discriminate|lia].
Qed.

End Runs2.

Section Runs3.
Context {U D : Type}.
Variable E : Env D.
Variable ro : requestOptions U.
Variable r0 : Request.
Variable dst : nat -> option D.
Variable us : nat -> U.

(** The first pass, exactly: no wait, the body of the request delivered
    at instant 0, and [settle] on the answer. *)
Lemma first_attempt_exact tC (o : option D) (u : U) :
  readable r0 ->
  exists rq' tr',
    iteration E ro tC (start ro r0 o u) =
    settle E ro (answer (server E 0 (body_of r0)))
      (set_attempt rq' tr' (delivered E {| now := 0; sent := [] |} (body_of r0))
         (start ro r0 o u)).
Proof.
  intros Hr. unfold iteration, wait, start; cbn [tickerC req transport wire].
  unfold transportOf. destruct (cond ro).
  - destruct (Request_Do_first E r0 {| now := 0; sent := [] |} Hr)
      as (rq' & tr' & Hdo & _).
    rewrite Hdo. exists rq', tr'. reflexivity.
  - destruct (Request_Do_plain E r0 {| now := 0; sent := [] |} Hr) as (rq' & Hdo).
    rewrite Hdo. exists rq', esClient. reflexivity.
Qed.



End Runs3.

(* ================================================================== *)
(** * Further lemmas: combinator, decoder, documents *)
(* ================================================================== *)

Section AllConditionNesting.
Context {U : Type}.

Lemma AllCondition_concat (xs ys : list (ConditionFunc U)) resp : forall u,
  AllCondition (xs ++ ys) resp u =
  (let (b, u') := AllCondition xs resp u in
   if b then AllCondition ys resp u' else (false, u')).
Proof.
  induction xs as [|c xs IH]; intros u; simpl.
  - reflexivity.
  - destruct (c resp u) as [[] u1]; simpl; [apply IH|reflexivity].
Qed.
End AllConditionNesting.

(** Without a destination the decoder plays no part in a pass. *)
Lemma Perform_same_server {D : Type} (E : Env D) um tr : forall body w,
  Perform (with_decoder E um) tr body w = Perform E tr body w.
Proof.
  induction tr as [|t IH gb]; intros body w; simpl.
  - reflexivity.
  - destruct body as [rd|].
    + destruct gb as [data|].
      * rewrite IH. reflexivity.
      * destruct (rerr rd) as [e|]; [reflexivity|]. rewrite IH. reflexivity.
    + rewrite IH. reflexivity.
Qed.

Lemma iteration_nil_out {U D : Type} (E : Env D) um (ro : requestOptions U) tC
  (st : LoopState U D) :
  out st = None ->
  iteration (with_decoder E um) ro tC st = iteration E ro tC st.
Proof.
  intros Ho. unfold iteration.
  change (wait (with_decoder E um) tC st) with (wait E tC st).
  destruct (wait E tC st) as [st1|f] eqn:Hw; [|reflexivity].
  destruct (wait_passes _ _ _ _ Hw) as (_ & _ & _ & _ & Ho1 & _).
  unfold Request_Do. rewrite Perform_same_server.
  destruct (Perform E (transport st1) (req_Body (req st1)) (wire st1))
    as [[[a body'] tr'] w'].
  unfold settle, set_attempt; cbn [out]. rewrite Ho1, Ho.
  destruct a as [resp|e]; reflexivity.
Qed.

Lemma loop_nil_out {U D : Type} (E : Env D) um (ro : requestOptions U) tC fuel :
  forall st : LoopState U D,
  out st = None ->
  loop (with_decoder E um) ro tC fuel st = loop E ro tC fuel st /\
  out (final (loop E ro tC fuel st)) = None.
Proof.
  induction fuel as [|fuel IH]; intros st Ho; simpl; [auto|].
  rewrite (iteration_nil_out E um ro tC st Ho).
  destruct (iteration E ro tC st) as [st'|f] eqn:Hit.
  - apply IH. apply (iteration_counts _ _ _ _ _ Hit). exact Ho.
  - split; [reflexivity|].
    destruct (iteration_ends _ _ _ _ _ Hit)
      as [Hw | (st1 & a & rq' & tr' & w' & Hw & Hdo & Hs)].
    + destruct (wait_expires _ _ _ _ Hw) as (tk & d & t & tk' & _ & _ & _ & -> & _).
      exact Ho.
    + destruct (settle_ends _ _ _ _ _ Hs) as (_ & _ & _ & _ & _ & Hout).
      destruct (wait_passes _ _ _ _ Hw) as (_ & _ & _ & _ & Ho1 & _).
      apply Hout. simpl. congruence.
Qed.

Section Documents.
Import JSON Query.

Lemma float64_not_finite_not_zero f :
  float64_is_finite f = false -> float64_is_zero f = false.
Proof.
  unfold float64_is_finite, float64_is_zero. intros H.
  apply negb_false_iff, Z.eqb_eq in H.
  apply Z.eqb_neq. intros Hz.
  assert (Hb : Z.testbit (Z.land (Z.shiftr f 52) (Z.ones 11)) 0 = true).
  { rewrite H. reflexivity. }
  rewrite Z.land_spec, Z.shiftr_spec in Hb by lia.
  assert (Hc : Z.testbit (Z.land f (Z.ones 63)) 52 = false).
  { rewrite Hz. apply Z.bits_0. }
  rewrite Z.land_spec in Hc. simpl (0 + 52) in Hb.
  change (Z.testbit (Z.ones 63) 52) with true in Hc.
  change (Z.testbit (Z.ones 11) 0) with true in Hb.
  rewrite andb_true_r in Hb, Hc. congruence.
Qed.

Lemma Marshal_slice_any (l : list any) (js : list json) :
  Forall2 (fun x j => Marshal x = Some j) l js ->
  Marshal (slice_any l) = Some (JArray js).
Proof.
  induction 1 as [|x j l js Hx _ IH].
  - reflexivity.
  - cbn [Marshal] in IH |- *. rewrite Hx.
    destruct ((fix elems (l : list any) : option (list json) :=
                 match l with
                 | [] => Some []
                 | x :: l' =>
                     match Marshal x with
                     | Some j =>
                         match elems l' with
                         | Some js => Some (j :: js)
                         | None => None
                         end
                     | None => None
                     end
                 end) l) as [js'|]; [|discriminate].
    inversion IH; subst. reflexivity.
Qed.

Lemma Marshal_slice_any_fails (l : list any) :
  (exists x, In x l /\ Marshal x = None) -> Marshal (slice_any l) = None.
Proof.
  intros (x & Hin & Hx). induction l as [|y l IH]; [destruct Hin|].
  cbn [Marshal] in IH |- *. destruct Hin as [-> | Hin].
  - rewrite Hx. reflexivity.
  - destruct (Marshal y); [|reflexivity].
    specialize (IH Hin).
    destruct ((fix elems (l : list any) : option (list json) :=
                 match l with
                 | [] => Some []
                 | x :: l' =>
                     match Marshal x with
                     | Some j =>
                         match elems l' with
                         | Some js => Some (j :: js)
                         | None => None
                         end
                     | None => None
                     end
                 end) l) as [js'|]; [discriminate|reflexivity].
Qed.

End Documents.

(* ================================================================== *)
(** * Further properties of the code *)
(* ================================================================== *)

(** X1. Options. With no option [Do] runs with a timeout of one minute,
    an interval of 100ms and no condition. An option applied last sets
    its own field whatever came before and leaves the two other fields
    as they were, so options of different kinds can be given in any
    order. *)
Theorem applyOptions_override {U : Type} (opts : list (RequestOption U)) :
  applyOptions (@nil (RequestOption U)) =
    {| timeout := 60000000000; interval := 100000000; cond := None |} /\
  (forall d,
     let ro := applyOptions (opts ++ [WithTimeout d]) in
     timeout ro = d /\ interval ro = interval (applyOptions opts) /\
     cond ro = cond (applyOptions opts)) /\
  (forall d,
     let ro := applyOptions (opts ++ [WithInterval d]) in
     interval ro = d /\ timeout ro = timeout (applyOptions opts) /\
     cond ro = cond (applyOptions opts)) /\
  (forall c,
     let ro := applyOptions (opts ++ [WithCondition c]) in
     cond ro = Some c /\ timeout ro = timeout (applyOptions opts) /\
     interval ro = interval (applyOptions opts)) /\
  (forall d i c,
     applyOptions (opts ++ [WithTimeout d; WithInterval i; WithCondition c]) =
     applyOptions (opts ++ [WithCondition c; WithInterval i; WithTimeout d])).
Proof.
  unfold applyOptions. split; [reflexivity|].
  split; [|split; [|split]]; intros; rewrite ?fold_left_app; simpl; auto.
Qed.

(** X2. Nesting. [AllCondition] of one condition is that condition, and
    a combined condition used inside another is the same as its
    conditions written out in place: result and side effects agree on
    every response. *)
Theorem AllCondition_nested {U : Type} (xs ys : list (ConditionFunc U)) (c : ConditionFunc U)
  resp (u : U) :
  AllCondition [c] resp u = c resp u /\
  AllCondition [AllCondition xs; AllCondition ys] resp u =
    AllCondition (xs ++ ys) resp u /\
  AllCondition (AllCondition xs :: ys) resp u = AllCondition (xs ++ ys) resp u.
Proof.
  split; [|split].
  - simpl. destruct (c resp u) as [[] u']; reflexivity.
  - rewrite AllCondition_concat. simpl.
    destruct (AllCondition xs resp u) as [[] u1]; simpl; [|reflexivity].
    destruct (AllCondition ys resp u1) as [[] u2]; reflexivity.
  - rewrite AllCondition_concat. simpl.
    destruct (AllCondition xs resp u) as [[] u1]; reflexivity.
Qed.

(** X3. Pace. With a positive interval, however a call goes, when it
    has made [k] attempts at least [k-1] intervals have passed since it
    started, and it has sent no more requests than it made attempts. *)
Theorem Do_pacing {U D : Type} (E : Env D) (r : Request) (o : option D)
  (opts : list (RequestOption U)) (u : U) (fuel : nat) :
  let ro := applyOptions opts in
  0 < interval ro ->
  let f := Do E fuel r o opts u in
  (Z.of_nat (attempts (final f)) - 1) * interval ro <= now (wire (final f)) /\
  (List.length (sent (wire (final f))) <= attempts (final f))%nat.
Proof.
  intros ro HI f. subst f. unfold Do. fold ro.
  exact (loop_paced E ro (timerOf ro) fuel (start ro r o u) HI
           (paced_start ro r o u HI)).
Qed.

Lemma Do_pacing_witness :
  let opts := [WithCondition Example.is_found; WithInterval (7 * Millisecond)] in
  let f := Do (Example.cluster Example.slow_second false) 5 Example.search (Some [])
              opts 0%nat in
  (Z.of_nat (attempts (final f)) - 1) * (7 * Millisecond) <= now (wire (final f)) /\
  (List.length (sent (wire (final f))) <= attempts (final f))%nat.
Proof.
  intros opts.
  apply (Do_pacing (Example.cluster Example.slow_second false) Example.search
           (Some []) opts 0%nat 5).
  reflexivity.
Defined.



(** X5. Nil destination. When [out] is nil the body is never decoded:
    the call is the same whatever the decoder would have done, and it
    leaves the destination nil. *)
Theorem Do_nil_out_skips_decoding {U D : Type} (E : Env D)
  (um : bytes -> D -> D * option error) (r : Request)
  (opts : list (RequestOption U)) (u : U) (fuel : nat) :
  Do (with_decoder E um) fuel r None opts u = Do E fuel r None opts u /\
  out (final (Do E fuel r None opts u)) = None.
Proof.
  unfold Do. apply loop_nil_out. reflexivity.
Qed.

(** X6. State after a failure. When an attempt ends the call with a
    transport error or an error status after [n] attempts that succeeded
    with the condition false, the destination still holds what was
    decoded from the last of these [n] responses and the condition has
    been evaluated [n] times, not once more. *)
Theorem Do_error_keeps_state {U D : Type} (E : Env D) (r : Request)
  (opts : list (RequestOption U)) (n : nat)
  (resp : nat -> Response) (dst : nat -> option D) (us : nat -> U) (fuel : nat) :
  let ro := applyOptions opts in
  let B := body_of r in
  readable r ->
  0 < interval ro ->
  unsatisfied E (cond ro) B n resp dst us ->
  allows E ro B n ->
  (n < fuel)%nat ->
  (exists err, answer (server E n B) = inr err) \/
  (exists bad, answer (server E n B) = inl bad /\ IsError bad = true) ->
  let f := Do E fuel r (dst 0%nat) opts (us 0%nat) in
  out (final f) = dst n /\ ustate (final f) = us n /\
  exists e, outcome f = Return None (Some e).
Proof.
  intros ro B Hr HI Hun Hal Hfuel Hbad f.
  destruct (attempt_reached E ro r dst us n resp (fuel - S n) Hr HI Hun Hal)
    as (st2 & Hl & Hat & Hs & Ho & Hu).
  subst f. unfold Do. fold ro.
  replace fuel with (n + S (fuel - S n))%nat by lia.
  rewrite Hl. fold B.
  destruct Hbad as [(err & Ha) | (bad & Ha & He)]; rewrite Ha.
  - simpl. eauto.
  - unfold settle. rewrite He. simpl. eauto.
Qed.

Lemma Do_error_keeps_state_witness :
  let opts := [WithCondition Example.is_found; WithTimeout Minute] in
  let f := Do (Example.cluster Example.refusing false) 9 Example.search
              (Some []) opts 0%nat in
  out (final f) = Some (bytes_of "pending") /\ ustate (final f) = 1%nat /\
  exists e, outcome f = Return None (Some e).
Proof.
  intros opts.
  apply (Do_error_keeps_state (Example.cluster Example.refusing false)
           Example.search opts 1
           Example.indexing_resp Example.indexing_dst (fun i => i) 9).
  - reflexivity.
  - reflexivity.
  - intros i Hi. assert (i = 0)%nat as -> by lia.
    split; [repeat split|exists Example.is_found; split; reflexivity].
  - right. reflexivity.
  - lia.
  - left. eexists. reflexivity.
Defined.



(** X8. No added latency. When the first attempt succeeds and there is
    no condition or the condition is true on it, the call returns when
    the round trip does: no ticker is created, and neither the interval
    (even a non-positive one) nor the timeout plays any part. *)
Theorem Do_first_try_no_wait {U D : Type} (E : Env D) (r : Request) (o d' : option D)
  (opts : list (RequestOption U)) (u : U) (resp : Response) (fuel : nat) :
  let ro := applyOptions opts in
  readable r ->
  succeeds E (body_of r) 0 resp o d' ->
  match cond ro with
  | None => True
  | Some c => fst (c (seen resp) u) = true
  end ->
  (0 < fuel)%nat ->
  let f := Do E fuel r o opts u in
  outcome f = Return (Some (seen resp)) None /\
  attempts (final f) = 1%nat /\
  now (wire (final f)) = Z.of_N (elapsed (server E 0 (body_of r))) /\
  tickerC (final f) = None /\
  out (final f) = d'.
Proof.
  intros ro Hr (Ha & He & Hb & Hd) Hc Hfuel f.
  destruct fuel as [|fuel]; [lia|].
  subst f. unfold Do. fold ro. cbn [loop].
  destruct (first_attempt_exact E ro r (timerOf ro) o u Hr) as (rq' & tr' & Hit).
  rewrite Hit, Ha.
  set (st2 := set_attempt rq' tr'
                (delivered E {| now := 0; sent := [] |} (body_of r)) (start ro r o u)).
  assert (Hd2 : decode E (rest (resp_Body resp)) (out st2) = (d', None)) by exact Hd.
  rewrite (settle_answered E ro st2 resp d' He Hb Hd2).
  destruct (cond ro) as [c|].
  - change (ustate st2) with u.
    destruct (c (seen resp) u) as [b u']. simpl in Hc. subst b.
    cbv beta iota. repeat split.
  - repeat split.
Qed.

Lemma Do_first_try_no_wait_witness :
  let opts := [WithCondition (pure_cond (fun resp => resp_StatusCode resp =? 202));
               WithInterval (-5); WithTimeout 1] in
  let f := Do (Example.cluster Example.indexing false) 3 Example.search (Some [])
              opts tt in
  outcome f = Return (Some (Example.reply 202 "pending")) None /\
  attempts (final f) = 1%nat /\
  now (wire (final f)) = 10 * Millisecond /\
  tickerC (final f) = None /\
  out (final f) = Some (bytes_of "pending").
Proof.
  intros opts.
  apply (Do_first_try_no_wait (Example.cluster Example.indexing false)
           Example.search (Some []) (Some (bytes_of "pending")) opts tt
           (Example.reply 202 "pending") 3).
  - reflexivity.
  - repeat split.
  - reflexivity.
  - lia.
Defined.

Section QueryProperties.
Import JSON Query.

(** X9. Key collision. A [terms] query on a field called boost with a
    non-zero boost loses its values: the object has the single member
    boost, holding the number. *)
Theorem TermsQuery_boost_collision (values : slice) (boost : float64) :
  float64_is_zero boost = false ->
  float64_is_finite boost = true ->
  TermsQuery_MarshalJSON
    {| TermsQuery_Field := "boost"; Values := values; TermsQuery_Boost := boost |}
  = Some (JObject [("terms"%string, JObject [("boost"%string, JFloat boost)])]).
Proof.
  intros Hz Hf. unfold TermsQuery_MarshalJSON, encodeQueryJSON.
  cbn [TermsQuery_Field Values TermsQuery_Boost]. rewrite Hz.
  cbn [negb map_set]. change (String.eqb "boost" "boost") with true.
  cbn [Marshal]. rewrite Hf. reflexivity.
Qed.

Lemma TermsQuery_boost_collision_witness :
  TermsQuery_MarshalJSON
    {| TermsQuery_Field := "boost";
       Values := Some [string_any "a"; unsupported_any];
       TermsQuery_Boost := 4611686018427387904 |}
  = Some (JObject [("terms"%string,
                    JObject [("boost"%string, JFloat 4611686018427387904)])]).
Proof.
  apply (TermsQuery_boost_collision (Some [string_any "a"; unsupported_any])
           4611686018427387904); reflexivity.
Defined.

(** X10. Non-zero boost. A finite non-zero boost is written after the
    value of a [term] query, and next to the field of a [terms] query
    in the order of the keys; a boost that is not finite (NaN or an
    infinity) makes both fail. *)
Theorem boost_when_not_zero (field : string) (boost : float64) :
  float64_is_zero boost = false ->
  (float64_is_finite boost = true ->
   (forall value jv,
      Marshal value = Some jv ->
      TermQuery_MarshalJSON
        {| TermQuery_Field := field; TermQuery_Value := value;
           TermQuery_Boost := boost |}
      = Some (JObject [("term"%string,
                JObject [(field, JObject [("value"%string, jv);
                                          ("boost"%string, JFloat boost)])])])) /\
   (forall values jvs,
      String.eqb "boost" field = false ->
      Marshal (of_slice values) = Some jvs ->
      TermsQuery_MarshalJSON
        {| TermsQuery_Field := field; Values := values; TermsQuery_Boost := boost |}
      = Some (JObject [("terms"%string,
                JObject (if String.leb field "boost"
                         then [(field, jvs); ("boost"%string, JFloat boost)]
                         else [("boost"%string, JFloat boost); (field, jvs)]))]))) /\
  (float64_is_finite boost = false ->
   (forall value,
      TermQuery_MarshalJSON
        {| TermQuery_Field := field; TermQuery_Value := value;
           TermQuery_Boost := boost |} = None) /\
   (forall values,
      TermsQuery_MarshalJSON
        {| TermsQuery_Field := field; Values := values; TermsQuery_Boost := boost |}
      = None)).
Proof.
  intros Hz. split.
  - intros Hf. split.
    + intros value jv Hv.
      unfold TermQuery_MarshalJSON, termQuery, encodeQueryJSON, field_float64, field_any.
      cbn [andb TermQuery_Field TermQuery_Value TermQuery_Boost].
      rewrite Hz. cbn [Marshal]. rewrite Hv, Hf. reflexivity.
    + intros values jvs Hne Hv.
      unfold TermsQuery_MarshalJSON, encodeQueryJSON.
      cbn [TermsQuery_Field Values TermsQuery_Boost]. rewrite Hz.
      cbn [negb map_set]. rewrite Hne.
      cbn [Marshal]. rewrite Hv, Hf.
      cbn [option_map sort_members fold_right insert_member fst].
      destruct (String.leb field "boost"); reflexivity.
  - intros Hf. split.
    + intros value.
      unfold TermQuery_MarshalJSON, termQuery, encodeQueryJSON, field_float64, field_any.
      cbn [andb TermQuery_Field TermQuery_Value TermQuery_Boost].
      rewrite Hz. cbn [Marshal]. rewrite Hf.
      destruct (Marshal value); reflexivity.
    + intros values.
      unfold TermsQuery_MarshalJSON, encodeQueryJSON.
      cbn [TermsQuery_Field Values TermsQuery_Boost]. rewrite Hz.
      cbn [negb map_set].
      destruct (String.eqb "boost" field); cbn [Marshal]; rewrite Hf;
        [reflexivity|].
      destruct (Marshal (of_slice values)); reflexivity.
Qed.

Lemma boost_when_not_zero_witness :
  TermQuery_MarshalJSON
    {| TermQuery_Field := "status"; TermQuery_Value := nil_any;
       TermQuery_Boost := 4611686018427387904 |}
  = Some (JObject [("term"%string,
            JObject [("status"%string,
                      JObject [("value"%string, JNull);
                               ("boost"%string, JFloat 4611686018427387904)])])]).
Proof.
  apply (proj1 (proj1 (boost_when_not_zero "status" 4611686018427387904 eq_refl)
                  eq_refl) nil_any JNull eq_refl).
Defined.

(** X11. Nested builders. A list of builders placed in the filter of a
    [bool] query is written as the array of their own documents, in
    order; if one of them fails the [bool] query fails. *)
Theorem builders_nest (bs : list Builder) :
  (forall docs,
     Forall2 (fun b doc => MarshalJSON b = Some doc) bs docs ->
     Marshal (slice_any (map as_any bs)) = Some (JArray docs) /\
     (bs <> [] ->
      BoolQuery_MarshalJSON
        {| Filter := Some (map as_any bs); Must := None; MustNot := None;
           Should := None; MinimumShouldMatch := 0; BoolQuery_Boost := 0 |}
      = Some (JObject [("bool"%string, JObject [("filter"%string, JArray docs)])]))) /\
  ((exists b, In b bs /\ MarshalJSON b = None) ->
   BoolQuery_MarshalJSON
     {| Filter := Some (map as_any bs); Must := None; MustNot := None;
        Should := None; MinimumShouldMatch := 0; BoolQuery_Boost := 0 |}
   = None).
Proof.
  split.
  - intros docs Hall.
    assert (Hs : Marshal (slice_any (map as_any bs)) = Some (JArray docs)).
    { apply Marshal_slice_any. induction Hall; constructor; auto. }
    split; [exact Hs|].
    intros Hne. unfold BoolQuery_MarshalJSON, boolQuery, encodeQueryJSON,
      field_slice, field_int, field_float64.
    cbn [Filter Must MustNot Should MinimumShouldMatch BoolQuery_Boost len of_slice].
    assert (Hlen : (Z.of_nat (List.length (map as_any bs)) =? 0) = false).
    { destruct bs; [congruence|]. reflexivity. }
    rewrite Hlen. change (0 =? 0) with true. change (float64_is_zero 0) with true.
    cbn [andb]. cbn [Marshal] in Hs |- *.
    destruct ((fix elems (l : list any) : option (list json) :=
                 match l with
                 | [] => Some []
                 | x :: l' =>
                     match Marshal x with
                     | Some j =>
                         match elems l' with
                         | Some js => Some (j :: js)
                         | None => None
                         end
                     | None => None
                     end
                 end) (map as_any bs)) as [js'|]; [|discriminate].
    inversion Hs; subst. reflexivity.
  - intros (b & Hin & Hb).
    assert (Hs : Marshal (slice_any (map as_any bs)) = None).
    { apply Marshal_slice_any_fails. exists (as_any b). split; [|exact Hb].
      apply in_map; exact Hin. }
    unfold BoolQuery_MarshalJSON, boolQuery, encodeQueryJSON,
      field_slice, field_int, field_float64.
    cbn [Filter Must MustNot Should MinimumShouldMatch BoolQuery_Boost len of_slice].
    assert (Hlen : (Z.of_nat (List.length (map as_any bs)) =? 0) = false).
    { destruct bs; [destruct Hin|]. reflexivity. }
    rewrite Hlen. change (0 =? 0) with true. change (float64_is_zero 0) with true.
    cbn [andb]. cbn [Marshal] in Hs |- *.
    destruct ((fix elems (l : list any) : option (list json) :=
                 match l with
                 | [] => Some []
                 | x :: l' =>
                     match Marshal x with
                     | Some j =>
                         match elems l' with
                         | Some js => Some (j :: js)
                         | None => None
                         end
                     | None => None
                     end
                 end) (map as_any bs)) as [js'|]; [discriminate|reflexivity].
Qed.

Lemma builders_nest_witness :
  BoolQuery_MarshalJSON
    {| Filter := Some (map as_any
                   [Exists {| ExistsQuery_Field := "host" |};
                    Term {| TermQuery_Field := "status";
                            TermQuery_Value := string_any "ok";
                            TermQuery_Boost := 0 |}]);
       Must := None; MustNot := None; Should := None;
       MinimumShouldMatch := 0; BoolQuery_Boost := 0 |}
  = Some (JObject
      [("bool"%string,
        JObject
          [("filter"%string,
            JArray
              [JObject [("exists"%string,
                         JObject [("field"%string, JString "host")])];
               JObject [("term"%string,
                         JObject [("status"%string,
                                   JObject [("value"%string, JString "ok")])])]])])]).
Proof.
  apply (proj1 (builders_nest
           [Exists {| ExistsQuery_Field := "host" |};
            Term {| TermQuery_Field := "status"; TermQuery_Value := string_any "ok";
                    TermQuery_Boost := 0 |}])).
  - repeat constructor.
  - discriminate.
Defined.

(** X12. Members of a [bool] query. The members appear in the order
    filter, must, must_not, should, minimum_should_match, boost, each
    one present exactly when its slice is not empty (nil or not) or its
    number is not zero; a boost that is not finite makes the query
    fail. *)
Theorem BoolQuery_members (q : BoolQuery) :
  (forall jf jm jn js,
     Marshal (of_slice (Filter q)) = Some jf ->
     Marshal (of_slice (Must q)) = Some jm ->
     Marshal (of_slice (MustNot q)) = Some jn ->
     Marshal (of_slice (Should q)) = Some js ->
     float64_is_finite (BoolQuery_Boost q) = true ->
     BoolQuery_MarshalJSON q =
     Some (JObject [("bool"%string, JObject
       ((if len (Filter q) =? 0 then [] else [("filter"%string, jf)])
        ++ (if len (Must q) =? 0 then [] else [("must"%string, jm)])
        ++ (if len (MustNot q) =? 0 then [] else [("must_not"%string, jn)])
        ++ (if len (Should q) =? 0 then [] else [("should"%string, js)])
        ++ (if MinimumShouldMatch q =? 0 then []
            else [("minimum_should_match"%string, JInt (MinimumShouldMatch q))])
        ++ (if float64_is_zero (BoolQuery_Boost q) then []
            else [("boost"%string, JFloat (BoolQuery_Boost q))])))])) /\
  (float64_is_finite (BoolQuery_Boost q) = false ->
   BoolQuery_MarshalJSON q = None).
Proof.
  split.
  - intros jf jm jn js Hf Hm Hn Hs Hfin.
    unfold BoolQuery_MarshalJSON, boolQuery, encodeQueryJSON,
      field_slice, field_int, field_float64.
    destruct (len (Filter q) =? 0), (len (Must q) =? 0), (len (MustNot q) =? 0),
             (len (Should q) =? 0), (MinimumShouldMatch q =? 0),
             (float64_is_zero (BoolQuery_Boost q));
      cbn [andb Marshal]; rewrite ?Hf, ?Hm, ?Hn, ?Hs, ?Hfin; reflexivity.
  - intros Hfin. pose proof (float64_not_finite_not_zero _ Hfin) as Hz.
    unfold BoolQuery_MarshalJSON, boolQuery, encodeQueryJSON,
      field_slice, field_int, field_float64.
    rewrite Hz.
    destruct (len (Filter q) =? 0), (len (Must q) =? 0), (len (MustNot q) =? 0),
             (len (Should q) =? 0), (MinimumShouldMatch q =? 0);
      cbn [andb Marshal]; rewrite Hfin;
      repeat match goal with
             | |- context [Marshal ?x] => destruct (Marshal x)
             end; reflexivity.
Qed.

Lemma BoolQuery_members_witness :
  BoolQuery_MarshalJSON
    {| Filter := Some []; Must := None;
       MustNot := Some [string_any "x"]; Should := None;
       MinimumShouldMatch := 2; BoolQuery_Boost := 0 |}
  = Some (JObject [("bool"%string,
            JObject [("must_not"%string, JArray [JString "x"]);
                     ("minimum_should_match"%string, JInt 2)])]).
Proof.
  apply (proj1 (BoolQuery_members
           {| Filter := Some []; Must := None;
              MustNot := Some [string_any "x"]; Should := None;
              MinimumShouldMatch := 2; BoolQuery_Boost := 0 |})
           (JArray []) JNull (JArray [JString "x"]) JNull);
    reflexivity.
Defined.

End QueryProperties.
